(** * MCP client: discovery, selection, invocation and cleanup

    A shallow embedding of the TypeScript command-line clients
    (index_anthoropic_api.ts, index_gemini_api.ts and the two earlier
    variants): the backend connections they open and close, the selector,
    the two invocation protocols, the normalisation of tool results and
    one cycle of the session controller.

    JavaScript strings are sequences of UTF-16 code units; the platform
    functions the source calls (String.prototype.trim / endsWith / match,
    JSON.stringify, JSON.parse) are written out from ECMA-262. The MCP
    SDK, the child processes and the language models are the outside
    world: they are oracles of an environment record. *)

From Stdlib Require Import ZArith NArith Ascii String Lia.
From Stdlib Require Import Decimal DecimalFacts DecimalPos DecimalN DecimalZ.
From stdpp Require Import base list gmap strings.

(** ** JavaScript strings *)

Abbreviation jsstring := (list N).

(** An ASCII literal as a JavaScript string. *)
Definition js (s : string) : jsstring :=
  map N_of_ascii (list_ascii_of_string s).
Arguments js s%_string.

Definition unit_eqb (a b : N) : bool := N.eqb a b.

Definition str_eqb (a b : jsstring) : bool := bool_decide (a = b).

(** ECMA-262 LineTerminator: LF, CR, LS, PS. *)
Definition isLineTerminator (c : N) : bool :=
  N.eqb c 10 || N.eqb c 13 || N.eqb c 8232 || N.eqb c 8233.

(** ECMA-262 WhiteSpace: TAB, VT, FF, SP, NBSP, ZWNBSP and category Zs. *)
Definition isWhiteSpace (c : N) : bool :=
  N.eqb c 9 || N.eqb c 11 || N.eqb c 12 || N.eqb c 32 || N.eqb c 160
  || N.eqb c 5760 || (N.leb 8192 c && N.leb c 8202)
  || N.eqb c 8239 || N.eqb c 8287 || N.eqb c 12288 || N.eqb c 65279.

(** What [\s] matches and what [trim] strips. *)
Definition isSpace (c : N) : bool := isWhiteSpace c || isLineTerminator c.

Fixpoint trimStart (s : jsstring) : jsstring :=
  match s with
  | c :: s' => if isSpace c then trimStart s' else s
  | [] => []
  end.

Definition trimEnd (s : jsstring) : jsstring := rev (trimStart (rev s)).

Definition trim (s : jsstring) : jsstring := trimEnd (trimStart s).

(** [s.endsWith(x)]: the last [length x] code units of [s] are [x]. *)
Definition endsWith (s x : jsstring) : bool :=
  (length x <=? length s)%nat && str_eqb (drop (length s - length x) s) x.

(** [parts.join(sep)]. *)
Fixpoint join (sep : jsstring) (parts : list jsstring) : jsstring :=
  match parts with
  | [] => []
  | [p] => p
  | p :: rest => p ++ sep ++ join sep rest
  end.

(** [toLowerCase], on the code units that can reach the letters of the
    affirmative answer: A-Z, and the Kelvin sign, whose lower case is k.
    No other code unit has o or k in its lower-case mapping. *)
Definition lowerUnit (c : N) : N :=
  if (N.leb 65 c && N.leb c 90)%bool then (c + 32)%N
  else if N.eqb c 8490 then 107%N
  else c.

Definition toLowerCase (s : jsstring) : jsstring := map lowerUnit s.

(** ** Decimal digits *)

Fixpoint uint_units (d : Decimal.uint) : jsstring :=
  match d with
  | Nil => []
  | D0 d => 48%N :: uint_units d
  | D1 d => 49%N :: uint_units d
  | D2 d => 50%N :: uint_units d
  | D3 d => 51%N :: uint_units d
  | D4 d => 52%N :: uint_units d
  | D5 d => 53%N :: uint_units d
  | D6 d => 54%N :: uint_units d
  | D7 d => 55%N :: uint_units d
  | D8 d => 56%N :: uint_units d
  | D9 d => 57%N :: uint_units d
  end.

(** Number::toString on an integer that needs no exponent. *)
Definition int_to_string (z : Z) : jsstring :=
  match Z.to_int z with
  | Pos d => uint_units d
  | Neg d => 45%N :: uint_units d
  end.

Definition nat_to_string (n : nat) : jsstring := int_to_string (Z.of_nat n).

(** ** JSON values *)

(** What JSON.parse returns and what travels over the MCP channel. An
    object is its own properties in enumeration order. Numbers are the
    integers (the IEEE doubles with an integral value and no exponent in
    their decimal form); fractions are outside the model. *)
#[warnings="-register-all"]
Inductive JValue :=
| JNull
| JBool (b : bool)
| JNum (z : Z)
| JStr (s : jsstring)
| JArr (items : list JValue)
| JObj (props : list (jsstring * JValue)).

(** Own-property lookup, [o.key]. *)
Fixpoint getProp (key : jsstring) (props : list (jsstring * JValue)) : option JValue :=
  match props with
  | [] => None
  | (k, v) :: rest => if str_eqb k key then Some v else getProp key rest
  end.

(** ** Tools *)

(** [description] is optional in the SDK's tool type: [None] is
    [undefined]. *)
Record Tool := mkTool {
  name : jsstring;
  description : option jsstring;
  input_schema : JValue
}.

(** ** Exceptions, the world, and the monad of the client code *)

Inductive exn :=
| JsError (message : jsstring)   (* throw new Error(message) *)
| SyntaxError                    (* thrown by JSON.parse *)
| TypeError                      (* property read on null *)
| Rejected (code : nat).         (* a rejection from the SDK, a process or a model *)

Abbreviation ClientId := nat.

Record ToolCall := mkCall {
  call_client : ClientId;
  call_name : jsstring;
  call_arguments : JValue
}.

(** The state the claims are about: which clients are connected, which
    processes were spawned (command, script), and which tool calls were
    sent. *)
Record World := mkWorld {
  next_client : ClientId;
  open_conns : gset ClientId;
  spawns : list (jsstring * jsstring);
  calls : list ToolCall
}.

Inductive Completion (A : Type) :=
| Normal (a : A)
| Throw (e : exn).
Arguments Normal {A} a.
Arguments Throw {A} e.

Definition M (A : Type) : Type := World -> Completion A * World.

Definition ret {A} (a : A) : M A := fun w => (Normal a, w).

Definition throw {A} (e : exn) : M A := fun w => (Throw e, w).

Definition bind {A B} (m : M A) (k : A -> M B) : M B :=
  fun w =>
    match m w with
    | (Normal a, w') => k a w'
    | (Throw e, w') => (Throw e, w')
    end.

Declare Scope js_scope.
Delimit Scope js_scope with js.
Notation "x <- m ;; k" := (bind m (fun x => k))
  (at level 100, m at next level, right associativity) : js_scope.
Notation "m ;;; k" := (bind m (fun _ => k))
  (at level 100, right associativity) : js_scope.
Open Scope js_scope.

(** [try { body } catch (e) { handler e }]. *)
Definition try_catch {A} (body : M A) (handler : exn -> M A) : M A :=
  fun w =>
    match body w with
    | (Normal a, w') => (Normal a, w')
    | (Throw e, w') => handler e w'
    end.

(** [try { body } finally { fin }]: [fin] runs on every completion of
    [body]; if [fin] itself throws, that exception wins. *)
Definition try_finally {A} (body : M A) (fin : M unit) : M A :=
  fun w =>
    match body w with
    | (c, w') =>
        match fin w' with
        | (Normal _, w'') => (c, w'')
        | (Throw e, w'') => (Throw e, w'')
        end
    end.

(** [for (const x of xs) { body x }]. *)
Fixpoint for_of {A} (xs : list A) (body : A -> M unit) : M unit :=
  match xs with
  | [] => ret tt
  | x :: rest => body x ;;; for_of rest body
  end.

(** ** JSON.stringify *)

Definition isHighSurrogate (c : N) : bool := N.leb 55296 c && N.leb c 56319.
Definition isLowSurrogate (c : N) : bool := N.leb 56320 c && N.leb c 57343.

Definition hexDigit (n : N) : N :=
  if N.ltb n 10 then (48 + n)%N else (87 + n)%N.

(** UnicodeEscape: backslash, u, four lower-case hexadecimal digits. *)
Definition unicodeEscape (c : N) : jsstring :=
  [92%N; 117%N; hexDigit (c / 4096 mod 16); hexDigit (c / 256 mod 16);
   hexDigit (c / 16 mod 16); hexDigit (c mod 16)].

(** One code point that is not part of a surrogate pair. *)
Definition escapeUnit (c : N) : jsstring :=
  if N.eqb c 8 then [92%N; 98%N]
  else if N.eqb c 9 then [92%N; 116%N]
  else if N.eqb c 10 then [92%N; 110%N]
  else if N.eqb c 12 then [92%N; 102%N]
  else if N.eqb c 13 then [92%N; 114%N]
  else if N.eqb c 34 then [92%N; 34%N]
  else if N.eqb c 92 then [92%N; 92%N]
  else if N.ltb c 32 || isHighSurrogate c || isLowSurrogate c then unicodeEscape c
  else [c].

(** The body of QuoteJSONString: a surrogate pair is copied, a lone
    surrogate is escaped. *)
Fixpoint quoteUnits (s : jsstring) : jsstring :=
  match s with
  | [] => []
  | c :: rest =>
      if isHighSurrogate c then
        match rest with
        | d :: rest' =>
            if isLowSurrogate d then c :: d :: quoteUnits rest'
            else escapeUnit c ++ quoteUnits rest
        | [] => escapeUnit c
        end
      else escapeUnit c ++ quoteUnits rest
  end.

Definition quoteJSONString (s : jsstring) : jsstring :=
  34%N :: quoteUnits s ++ [34%N].

Definition isEmptyString (s : jsstring) : bool :=
  match s with [] => true | _ => false end.

(** The common tail of SerializeJSONObject and SerializeJSONArray. *)
Definition wrapPartial (opening closing : N) (gap indent stepback : jsstring)
    (partial : list jsstring) : jsstring :=
  match partial with
  | [] => [opening; closing]
  | _ =>
      if isEmptyString gap then
        opening :: join [44%N] partial ++ [closing]
      else
        opening :: 10%N :: indent ++ join (44%N :: 10%N :: indent) partial
          ++ 10%N :: stepback ++ [closing]
  end.

(** SerializeJSONProperty, with the current indentation. *)
Fixpoint serializeJSON (gap indent : jsstring) (v : JValue) {struct v} : jsstring :=
  match v with
  | JNull => js "null"
  | JBool true => js "true"
  | JBool false => js "false"
  | JNum z => int_to_string z
  | JStr s => quoteJSONString s
  | JArr items =>
      wrapPartial 91 93 gap (indent ++ gap) indent
        (map (serializeJSON gap (indent ++ gap)) items)
  | JObj props =>
      wrapPartial 123 125 gap (indent ++ gap) indent
        (map (fun '(k, x) =>
                quoteJSONString k ++ 58%N :: (if isEmptyString gap then [] else [32%N])
                  ++ serializeJSON gap (indent ++ gap) x) props)
  end.

(** [JSON.stringify(v, null, space)] for a numeric [space]. *)
Definition JSON_stringify (v : JValue) (space : nat) : jsstring :=
  serializeJSON (replicate (Nat.min 10 space) 32%N) [] v.

(** ** JSON.parse *)

Definition isJSONWhiteSpace (c : N) : bool :=
  N.eqb c 32 || N.eqb c 9 || N.eqb c 10 || N.eqb c 13.

Fixpoint skipWS (s : jsstring) : jsstring :=
  match s with
  | c :: s' => if isJSONWhiteSpace c then skipWS s' else s
  | [] => []
  end.

Definition hexValue (c : N) : option N :=
  if N.leb 48 c && N.leb c 57 then Some (c - 48)%N
  else if N.leb 97 c && N.leb c 102 then Some (c - 87)%N
  else if N.leb 65 c && N.leb c 70 then Some (c - 55)%N
  else None.

Definition hex4 (a b c d : N) : option N :=
  match hexValue a, hexValue b, hexValue c, hexValue d with
  | Some x, Some y, Some z, Some t => Some (x * 4096 + y * 256 + z * 16 + t)%N
  | _, _, _, _ => None
  end.

Definition simpleEscape (e : N) : option N :=
  if N.eqb e 34 then Some 34%N
  else if N.eqb e 92 then Some 92%N
  else if N.eqb e 47 then Some 47%N
  else if N.eqb e 98 then Some 8%N
  else if N.eqb e 102 then Some 12%N
  else if N.eqb e 110 then Some 10%N
  else if N.eqb e 114 then Some 13%N
  else if N.eqb e 116 then Some 9%N
  else None.

Definition consUnit (c : N) (r : option (jsstring * jsstring)) : option (jsstring * jsstring) :=
  match r with
  | Some (body, rest) => Some (c :: body, rest)
  | None => None
  end.

(** The characters of a string literal after its opening quote, up to
    and including the closing quote. *)
Fixpoint parseStringBody (s : jsstring) : option (jsstring * jsstring) :=
  match s with
  | [] => None
  | c :: rest =>
      if N.eqb c 34 then Some ([], rest)
      else if N.eqb c 92 then
        match rest with
        | [] => None
        | e :: rest' =>
            if N.eqb e 117 then
              match rest' with
              | h1 :: h2 :: h3 :: h4 :: rest'' =>
                  match hex4 h1 h2 h3 h4 with
                  | Some u => consUnit u (parseStringBody rest'')
                  | None => None
                  end
              | _ => None
              end
            else
              match simpleEscape e with
              | Some u => consUnit u (parseStringBody rest')
              | None => None
              end
        end
      else if N.ltb c 32 then None
      else consUnit c (parseStringBody rest)
  end.

Definition digitOf (c : N) : option (Decimal.uint -> Decimal.uint) :=
  if N.eqb c 48 then Some D0
  else if N.eqb c 49 then Some D1
  else if N.eqb c 50 then Some D2
  else if N.eqb c 51 then Some D3
  else if N.eqb c 52 then Some D4
  else if N.eqb c 53 then Some D5
  else if N.eqb c 54 then Some D6
  else if N.eqb c 55 then Some D7
  else if N.eqb c 56 then Some D8
  else if N.eqb c 57 then Some D9
  else None.

(** The longest run of decimal digits at the head of [s]. *)
Fixpoint readDigits (s : jsstring) : Decimal.uint * jsstring :=
  match s with
  | c :: rest =>
      match digitOf c with
      | Some d => let '(u, r) := readDigits rest in (d u, r)
      | None => (Nil, s)
      end
  | [] => (Nil, [])
  end.

(** The integer part of a JSON number: a single 0, or a run of digits
    that starts with 1-9. *)
Definition readInt (s : jsstring) : option (Decimal.uint * jsstring) :=
  match s with
  | c :: rest =>
      if N.eqb c 48 then Some (D0 Nil, rest)
      else match digitOf c with
           | Some _ => Some (readDigits s)
           | None => None
           end
  | [] => None
  end.

(** A fraction or an exponent would follow here. *)
Definition startsFraction (s : jsstring) : bool :=
  match s with
  | c :: _ => N.eqb c 46 || N.eqb c 101 || N.eqb c 69
  | [] => false
  end.

(** A JSON number; one with a fraction or an exponent is not an integer
    literal and is not read. *)
Definition parseNumber (s : jsstring) : option (Z * jsstring) :=
  match s with
  | c :: rest =>
      if N.eqb c 45 then
        match readInt rest with
        | Some (u, r) => if startsFraction r then None else Some (Z.of_int (Neg u), r)
        | None => None
        end
      else
        match readInt s with
        | Some (u, r) => if startsFraction r then None else Some (Z.of_int (Pos u), r)
        | None => None
        end
  | [] => None
  end.

(** [s] starts with the literal [lit]: what follows it. *)
Fixpoint expect (lit s : jsstring) : option jsstring :=
  match lit with
  | [] => Some s
  | l :: lit' =>
      match s with
      | c :: s' => if N.eqb c l then expect lit' s' else None
      | [] => None
      end
  end.

(** *** Property order of an object *)

Fixpoint allDigits (s : jsstring) : option Decimal.uint :=
  match s with
  | [] => Some Nil
  | c :: rest =>
      match digitOf c, allDigits rest with
      | Some d, Some u => Some (d u)
      | _, _ => None
      end
  end.

Definition uint_eqb (a b : Decimal.uint) : bool := str_eqb (uint_units a) (uint_units b).

(** An array index: the canonical decimal form of an integer below
    2^32 - 1. *)
Definition arrayIndex (k : jsstring) : option N :=
  match k with
  | [] => None
  | _ =>
      match allDigits k with
      | Some u =>
          if uint_eqb (Decimal.unorm u) u && N.ltb (N.of_uint u) 4294967295
          then Some (N.of_uint u) else None
      | None => None
      end
  end.

Fixpoint hasProp (key : jsstring) (props : list (jsstring * JValue)) : bool :=
  match props with
  | [] => false
  | (k, _) :: rest => str_eqb k key || hasProp key rest
  end.

Fixpoint replaceProp (key : jsstring) (v : JValue) (props : list (jsstring * JValue))
    : list (jsstring * JValue) :=
  match props with
  | [] => []
  | (k, x) :: rest =>
      if str_eqb k key then (k, v) :: rest else (k, x) :: replaceProp key v rest
  end.

(** A new array-index key goes among the index keys, in ascending
    order, before every other key. *)
Fixpoint insertIndexProp (i : N) (key : jsstring) (v : JValue)
    (props : list (jsstring * JValue)) : list (jsstring * JValue) :=
  match props with
  | [] => [(key, v)]
  | (k, x) :: rest =>
      match arrayIndex k with
      | Some j =>
          if N.ltb j i then (k, x) :: insertIndexProp i key v rest
          else (key, v) :: props
      | None => (key, v) :: props
      end
  end.

(** CreateDataProperty as OrdinaryOwnPropertyKeys later enumerates it:
    an existing key keeps its place, a new array index is sorted in, any
    other new key goes last. *)
Definition setProp (key : jsstring) (v : JValue) (props : list (jsstring * JValue))
    : list (jsstring * JValue) :=
  if hasProp key props then replaceProp key v props
  else match arrayIndex key with
       | Some i => insertIndexProp i key v props
       | None => props ++ [(key, v)]
       end.

(** The object a JSON text's members build, read left to right. *)
Definition objectOfMembers (members : list (jsstring * JValue)) : list (jsstring * JValue) :=
  fold_left (fun o '(k, v) => setProp k v o) members [].

(** *** Values *)

Fixpoint parseValue (fuel : nat) (s : jsstring) {struct fuel} : option (JValue * jsstring) :=
  match fuel with
  | O => None
  | S fuel' =>
      match skipWS s with
      | [] => None
      | c :: rest =>
          if N.eqb c 110 then r ← expect (js "ull") rest; Some (JNull, r)
          else if N.eqb c 116 then r ← expect (js "rue") rest; Some (JBool true, r)
          else if N.eqb c 102 then r ← expect (js "alse") rest; Some (JBool false, r)
          else if N.eqb c 34 then '(str, r) ← parseStringBody rest; Some (JStr str, r)
          else if N.eqb c 91 then
            match skipWS rest with
            | 93%N :: r => Some (JArr [], r)
            | _ => '(items, r) ← parseElements fuel' rest; Some (JArr items, r)
            end
          else if N.eqb c 123 then
            match skipWS rest with
            | 125%N :: r => Some (JObj [], r)
            | _ => '(members, r) ← parseMembers fuel' rest;
                   Some (JObj (objectOfMembers members), r)
            end
          else '(z, r) ← parseNumber (c :: rest); Some (JNum z, r)
      end
  end
with parseElements (fuel : nat) (s : jsstring) {struct fuel} : option (list JValue * jsstring) :=
  match fuel with
  | O => None
  | S fuel' =>
      '(v, r) ← parseValue fuel' s;
      match skipWS r with
      | 44%N :: r' => '(vs, r'') ← parseElements fuel' r'; Some (v :: vs, r'')
      | 93%N :: r' => Some ([v], r')
      | _ => None
      end
  end
with parseMembers (fuel : nat) (s : jsstring) {struct fuel}
    : option (list (jsstring * JValue) * jsstring) :=
  match fuel with
  | O => None
  | S fuel' =>
      match skipWS s with
      | 34%N :: r0 =>
          '(k, r1) ← parseStringBody r0;
          match skipWS r1 with
          | 58%N :: r2 =>
              '(v, r3) ← parseValue fuel' r2;
              match skipWS r3 with
              | 44%N :: r4 => '(ms, r5) ← parseMembers fuel' r4; Some ((k, v) :: ms, r5)
              | 125%N :: r4 => Some ([(k, v)], r4)
              | _ => None
              end
          | _ => None
          end
      | _ => None
      end
  end.

(** [JSON.parse(text)]; [None] is the SyntaxError. One unit of fuel is
    spent per nested call, each of which is reached past at least one more
    code unit, so the length of the text is enough. *)
Definition JSON_parse (text : jsstring) : option JValue :=
  match parseValue (S (length text)) text with
  | Some (v, rest) => if isEmptyString (skipWS rest) then Some v else None
  | None => None
  end.

(** ** Regular expressions: String.prototype.match without the g flag *)

Inductive CharClass :=
| Dot                (* [.]: anything but a line terminator *)
| Space              (* [\s] *)
| Lit (c : N).       (* a literal code unit *)

Definition classMatches (cls : CharClass) (c : N) : bool :=
  match cls with
  | Dot => negb (isLineTerminator c)
  | Space => isSpace c
  | Lit x => N.eqb c x
  end.

(** The pattern language of the two patterns in the source: single
    characters, a starred character class (greedy or lazy), and the
    opening and closing parentheses of capture groups. *)
Inductive Node :=
| Char (cls : CharClass)
| Star (greedy : bool) (cls : CharClass)
| GroupOpen
| GroupClose.

Abbreviation Regex := (list Node).

Definition literal (s : string) : Regex := map (fun c => Char (Lit c)) (js s).
Arguments literal s%_string.

(** A starred class followed by the rest of the pattern [k]. A greedy
    star tries one more character before it tries [k], a lazy star the
    other way round. *)
Fixpoint starLoop (greedy : bool) (cls : CharClass)
    (k : jsstring -> option (list jsstring)) (s : jsstring) : option (list jsstring) :=
  match s with
  | c :: s' =>
      if classMatches cls c then
        if greedy then
          match starLoop greedy cls k s' with
          | Some r => Some r
          | None => k s
          end
        else
          match k s with
          | Some r => Some r
          | None => starLoop greedy cls k s'
          end
      else k s
  | [] => k s
  end.

(** The backtracking matcher, anchored at the head of [s]. [marks]
    collects, most recent first, the input that was left at each
    parenthesis. *)
Fixpoint matchHere (re : Regex) (s : jsstring) (marks : list jsstring) {struct re}
    : option (list jsstring) :=
  match re with
  | [] => Some marks
  | Char cls :: re' =>
      match s with
      | c :: s' => if classMatches cls c then matchHere re' s' marks else None
      | [] => None
      end
  | GroupOpen :: re' => matchHere re' s (s :: marks)
  | GroupClose :: re' => matchHere re' s (s :: marks)
  | Star greedy cls :: re' => starLoop greedy cls (fun rest => matchHere re' rest marks) s
  end.

(** The first position, from the left, at which the pattern matches. *)
Fixpoint exec (re : Regex) (s : jsstring) : option (list jsstring) :=
  match matchHere re s [] with
  | Some marks => Some marks
  | None =>
      match s with
      | [] => None
      | _ :: s' => exec re s'
      end
  end.

(** The captured substrings, first group first. *)
Fixpoint captures (marks : list jsstring) : list jsstring :=
  match marks with
  | closing :: opening :: earlier =>
      captures earlier ++ [take (length opening - length closing) opening]
  | _ => []
  end.

(** [s.match(re)] for a pattern with two groups: [match[1]] and
    [match[2]]. *)
Definition String_match (re : Regex) (s : jsstring) : option (jsstring * jsstring) :=
  match exec re s with
  | Some marks =>
      match captures marks with
      | [g1; g2] => Some (g1, g2)
      | _ => None
      end
  | None => None
  end.

(** The selector's pattern: [path=], a lazy group of [.], a comma, [\s]
    starred, [name=], a greedy group of [.]. *)
Definition selection_pattern : Regex :=
  literal "path=" ++ [GroupOpen; Star false Dot; GroupClose] ++ literal ","
    ++ [Star true Space] ++ literal "name=" ++ [GroupOpen; Star true Dot; GroupClose].

(** The pattern of the argument synthesis: [name=], a lazy group of [.],
    a comma, [\s] starred, [args=], and a group made of an opening brace,
    [.] starred greedily and a closing brace. *)
Definition instruction_pattern : Regex :=
  literal "name=" ++ [GroupOpen; Star false Dot; GroupClose] ++ literal ","
    ++ [Star true Space] ++ literal "args="
    ++ [GroupOpen] ++ literal "{" ++ [Star true Dot] ++ literal "}" ++ [GroupClose].

(** ** Fixed texts of the source, as UTF-16 code units *)

(** The instruction of the selection prompt. *)
Definition selection_instruction : jsstring :=
  [
   12354; 12394; 12383; 12399; 12518; 12540; 12470; 12540; 12398; 12463; 12456; 12522;
   12395; 26368; 12418; 36969; 12375; 12383; 77; 67; 80; 12469; 12540; 12496; 12540;
   12398; 12484; 12540; 12523; 65288; 112; 97; 116; 104; 12392; 116; 111; 111; 108;
   21517; 12398; 32068; 12415; 21512; 12431; 12379; 65289; 12434; 36984; 25246; 12377;
   12427; 65; 73; 12391; 12377; 12290; 20840; 12484; 12540; 12523; 24773; 22577;
   12434; 21442; 32771; 12395; 12289; 26368; 12418; 38306; 36899; 24615; 12364; 39640;
   12356; 12484; 12540; 12523; 12398; 112; 97; 116; 104; 12392; 116; 111; 111; 108;
   21517; 12398; 12415; 12434; 21427; 23494; 12395; 49; 12388; 12384; 12369; 20986;
   21147; 12375; 12390; 12367; 12384; 12373; 12356; 12290; 29702; 30001; 12420; 35500;
   26126; 12399; 19981; 35201; 12391; 12377; 12290; 20986; 21147; 24418; 24335; 12399;
   24517; 12378; 32; 112; 97; 116; 104; 61; 60; 12497; 12473; 62; 44; 32; 110; 97;
   109; 101; 61; 60; 12484; 12540; 12523; 21517; 62; 32; 12398; 12415; 12290
  ]%N.

(** The label before the query, after a line feed. *)
Definition query_label : jsstring :=
  [
   10; 12518; 12540; 12470; 12540; 12463; 12456; 12522; 58; 32
  ]%N.

(** The label before the tool list. *)
Definition tool_list_label : jsstring :=
  [
   10; 10; 21033; 29992; 21487; 33021; 12394; 12484; 12540; 12523; 12522; 12473;
   12488; 58; 10
  ]%N.

(** The instruction of the argument-synthesis prompt. *)
Definition invocation_instruction : jsstring :=
  [
   12354; 12394; 12383; 12399; 77; 67; 80; 12469; 12540; 12496; 12540; 12484; 12540;
   12523; 12434; 20351; 12358; 65; 73; 12391; 12377; 12290; 20197; 19979; 12398;
   12484; 12540; 12523; 12522; 12473; 12488; 12363; 12425; 12289; 12518; 12540; 12470;
   12540; 12398; 12463; 12456; 12522; 12395; 26368; 12418; 36969; 12375; 12383; 12484;
   12540; 12523; 21517; 12392; 12381; 12398; 20837; 21147; 20516; 40; 74; 83; 79; 78;
   41; 12434; 49; 12388; 12384; 12369; 21427; 23494; 12395; 20986; 21147; 12375;
   12390; 12367; 12384; 12373; 12356; 12290; 10; 24517; 38920; 38917; 30446; 12420;
   22411; 12399; 105; 110; 112; 117; 116; 95; 115; 99; 104; 101; 109; 97; 12434;
   24517; 12378; 21442; 29031; 12375; 12289; 24517; 38920; 38917; 30446; 12399; 24517;
   12378; 22475; 12417; 12390; 12367; 12384; 12373; 12356; 12290; 29702; 30001; 12420;
   35500; 26126; 12399; 19981; 35201; 12391; 12377; 12290; 20986; 21147; 24418; 24335;
   12399; 24517; 12378; 32; 110; 97; 109; 101; 61; 60; 12484; 12540; 12523; 21517; 62;
   44; 32; 97; 114; 103; 115; 61; 60; 74; 83; 79; 78; 62; 32; 12398; 12415; 12290
  ]%N.

(** The head of the answer prompt. *)
Definition answer_question_label : jsstring :=
  [
   12518; 12540; 12470; 12540; 12398; 36074; 21839; 58; 32
  ]%N.

(** The instruction of the answer prompt, up to the start marker. *)
Definition answer_instruction : jsstring :=
  [
   10; 10; 27425; 12398; 77; 67; 80; 12484; 12540; 12523; 12398; 12487; 12540; 12479;
   12434; 21442; 32771; 12395; 12289; 12518; 12540; 12470; 12540; 12398; 36074; 21839;
   12395; 23550; 12375; 12390; 26085; 26412; 35486; 12391; 31777; 28500; 12363; 12388;
   30452; 25509; 30340; 12395; 22238; 31572; 12375; 12390; 12367; 12384; 12373; 12356;
   12290; 19981; 35201; 12394; 24773; 22577; 12399; 30465; 12365; 12289; 36074; 21839;
   12395; 21512; 12387; 12383; 20869; 23481; 12384; 12369; 12434; 31572; 12360; 12390;
   12367; 12384; 12373; 12356; 12290; 10; 10; 77; 67; 80; 12484; 12540; 12523; 12398;
   29983; 12487; 12540; 12479; 65288; 115; 116; 97; 114; 116; 65289; 58; 10
  ]%N.

(** The end marker of the answer prompt. *)
Definition answer_end_marker : jsstring :=
  [
   10; 77; 67; 80; 12484; 12540; 12523; 12398; 29983; 12487; 12540; 12479; 65288; 101;
   110; 100; 65289
  ]%N.

(** The label put before the final answer. *)
Definition answer_label : jsstring :=
  [
   12304; 22238; 31572; 12305; 10
  ]%N.

(** Message of the selector when the pattern does not match. *)
Definition msg_no_tool_selection : jsstring :=
  [
   76; 76; 77; 12364; 26377; 21177; 12394; 12484; 12540; 12523; 36984; 25246; 12434;
   36820; 12375; 12414; 12379; 12435; 12391; 12375; 12383; 58; 32
  ]%N.

(** Message of the selector when no server has the path. *)
Definition msg_server_not_found : jsstring :=
  [
   35442; 24403; 12469; 12540; 12496; 12540; 12364; 35211; 12388; 12363; 12426; 12414;
   12379; 12435; 58; 32
  ]%N.

(** Message of the selector when the server has no such tool. *)
Definition msg_tool_not_found : jsstring :=
  [
   35442; 24403; 12484; 12540; 12523; 12364; 35211; 12388; 12363; 12426; 12414; 12379;
   12435; 58; 32
  ]%N.

(** Message of processQuery when the pattern does not match. *)
Definition msg_no_tool_instruction : jsstring :=
  [
   71; 101; 109; 105; 110; 105; 12364; 26377; 21177; 12394; 12484; 12540; 12523;
   25351; 31034; 12434; 36820; 12375; 12414; 12379; 12435; 12391; 12375; 12383; 58; 32
  ]%N.

(** ** The outside world *)

(** A tool as the MCP SDK's [listTools] reports it. *)
Record SdkTool := mkSdkTool {
  sdk_name : jsstring;
  sdk_description : option jsstring;
  inputSchema : JValue
}.

(** A content block of an Anthropic response. *)
Inductive ContentBlock :=
| TextBlock (text : jsstring)
| ToolUseBlock (tool_name : jsstring) (input : JValue)
| OtherBlock.

Record MessageParam := mkMessage {
  role : jsstring;
  content : JValue
}.

(** Everything the client awaits: the operating system, the backend
    processes behind the MCP SDK, and the two model providers. A result
    [inl e] is a rejected promise. *)
Record Env := mkEnv {
  platform : jsstring;                                (* process.platform *)
  execPath : jsstring;                                (* process.execPath *)
  connect_outcome : jsstring -> jsstring -> option exn;   (* command, script *)
  listTools_outcome : jsstring -> exn + list SdkTool;     (* script *)
  callTool_outcome : ClientId -> jsstring -> JValue -> exn + JValue;
  messages_create : nat -> list MessageParam -> option (list Tool) -> exn + list ContentBlock;
  generateContent : jsstring -> jsstring -> exn + jsstring   (* model, prompt *)
}.

Definition await {A} (r : exn + A) : M A :=
  match r with
  | inl e => throw e
  | inr a => ret a
  end.

Section Client.

Variable env : Env.

(** *** Backend connection *)

(** [new Client(...)]: a fresh, unconnected client. *)
Definition newClient : M ClientId :=
  fun w =>
    (Normal (next_client w),
     mkWorld (S (next_client w)) (open_conns w) (spawns w) (calls w)).

(** [client.connect(new StdioClientTransport({command, args: [script]}))]:
    the process is spawned; the client is connected if the handshake
    succeeds. *)
Definition connect (c : ClientId) (command script : jsstring) : M unit :=
  fun w =>
    let spawned := spawns w ++ [(command, script)] in
    match connect_outcome env command script with
    | None => (Normal tt, mkWorld (next_client w) ({[c]} ∪ open_conns w) spawned (calls w))
    | Some e => (Throw e, mkWorld (next_client w) (open_conns w) spawned (calls w))
    end.

Definition listTools (script : jsstring) : M (list SdkTool) :=
  await (listTools_outcome env script).

(** [client.close()] and [transport.close()]: both release the
    connection, and closing twice is harmless. *)
Definition close (c : ClientId) : M unit :=
  fun w => (Normal tt, mkWorld (next_client w) (open_conns w ∖ {[c]}) (spawns w) (calls w)).

Definition transport_close (c : ClientId) : M unit := close c.

(** [client.callTool({name, arguments})]: one request, its [content]. *)
Definition callTool (c : ClientId) (tool_name : jsstring) (arguments : JValue) : M JValue :=
  fun w =>
    if decide (c ∈ open_conns w) then
      let w' := mkWorld (next_client w) (open_conns w) (spawns w)
                  (calls w ++ [mkCall c tool_name arguments]) in
      match callTool_outcome env c tool_name arguments with
      | inl e => (Throw e, w')
      | inr r => (Normal r, w')
      end
    else (Throw (Rejected 0), w).

(** The interpreter for a script: python for [.py], the running node
    binary otherwise. *)
Definition launchCommand (isPy : bool) : jsstring :=
  if isPy then
    if str_eqb (platform env) (js "win32") then js "python" else js "python3"
  else execPath env.

(** The copy of a reported tool the Anthropic variants keep. *)
Definition convertTool (tool : SdkTool) : Tool :=
  mkTool (sdk_name tool) (sdk_description tool) (inputSchema tool).

(** The copy the Gemini variant keeps: a missing description becomes
    the empty string. *)
Definition convertToolGemini (tool : SdkTool) : Tool :=
  mkTool (sdk_name tool) (Some (default [] (sdk_description tool))) (inputSchema tool).

(** [getServerTools] of the multi-server variants, which differ only in
    the copy they keep of each tool. [isJs] is computed and not used. *)
Definition getServerToolsWith (convertTool : SdkTool -> Tool) (serverScriptPath : jsstring)
    : M (list Tool * ClientId) :=
  c <- newClient ;;
  let isJs := endsWith serverScriptPath (js ".js") in
  let isPy := endsWith serverScriptPath (js ".py") in
  let command := launchCommand isPy in
  connect c command serverScriptPath ;;;
  toolsResult <- listTools serverScriptPath ;;
  ret (map convertTool toolsResult, c).

(** [MCPClient.connectToServer] of the single-server variant; [mcp] is
    the client made by the constructor, the result is [this.tools]. *)
Definition connectToServer_single (mcp : ClientId) (serverScriptPath : jsstring) : M (list Tool) :=
  try_catch
    (let isJs := endsWith serverScriptPath (js ".js") in
     let isPy := endsWith serverScriptPath (js ".py") in
     if negb isJs && negb isPy then
       throw (JsError (js "Server script must be a .js or .py file"))
     else
       let command := launchCommand isPy in
       connect mcp command serverScriptPath ;;;
       toolsResult <- listTools serverScriptPath ;;
       ret (map convertTool toolsResult))
    (fun e => throw e).

(** *** Selector *)

(** An entry of [allServerInfos]. The transport is the client's own: it
    is closed by closing the client. *)
Record ServerInfo := mkInfo {
  path : jsstring;
  tools : list Tool;
  client : ClientId
}.

(** What [selectServerScript] returns: the selected server's entry and
    [selectedTool]. *)
Record Selection := mkSelection {
  selectedServer : ServerInfo;
  selectedTool : Tool
}.

(** The discovery loop: each candidate in its own try/catch. *)
Fixpoint discover (convertTool : SdkTool -> Tool) (candidates : list jsstring)
    (allServerInfos : list ServerInfo) : M (list ServerInfo) :=
  match candidates with
  | [] => ret allServerInfos
  | p :: rest =>
      infos <- try_catch
                 (r <- getServerToolsWith convertTool p ;;
                  ret (allServerInfos ++ [mkInfo p (fst r) (snd r)]))
                 (fun _ => ret allServerInfos) ;;
      discover convertTool rest infos
  end.

(** [allTools]: every tool tagged with the path of its server. *)
Definition aggregate (allServerInfos : list ServerInfo) : list (jsstring * Tool) :=
  flat_map (fun info => map (fun tool => (path info, tool)) (tools info)) allServerInfos.

(** A template literal prints [undefined] for a missing description. *)
Definition descriptionText (d : option jsstring) : jsstring :=
  match d with
  | Some s => s
  | None => js "undefined"
  end.

Definition toolListText (allTools : list (jsstring * Tool)) : jsstring :=
  join [10%N]
    (imap (fun idx '(p, tool) =>
             js "Tool" ++ nat_to_string (idx + 1) ++ js ": path='" ++ p
               ++ js "', name='" ++ name tool
               ++ js "', description='" ++ descriptionText (description tool) ++ js "'")
          allTools).

Definition selectionPrompt (query : jsstring) (allTools : list (jsstring * Tool)) : jsstring :=
  selection_instruction ++ query_label ++ query ++ tool_list_label ++ toolListText allTools.

(** The loop that closes what was not selected. *)
Definition closeUnselected (allServerInfos : list ServerInfo) (selectedPath : jsstring) : M unit :=
  for_of allServerInfos (fun info =>
    if negb (str_eqb (path info) selectedPath) then
      close (client info) ;;; transport_close (client info)
    else ret tt).

(** The second half of [selectServerScript]: the response is parsed,
    the pair is looked up, and what was not selected is closed. *)
Definition resolveSelection (allServerInfos : list ServerInfo) (llmText : jsstring)
    : M Selection :=
  match String_match selection_pattern llmText with
  | None => throw (JsError (msg_no_tool_selection ++ llmText))
  | Some (g1, g2) =>
      let selectedPath := trim g1 in
      let selectedName := trim g2 in
      match List.find (fun info => str_eqb (path info) selectedPath) allServerInfos with
      | None => throw (JsError (msg_server_not_found ++ selectedPath))
      | Some selectedServer =>
          match List.find (fun t => str_eqb (name t) selectedName) (tools selectedServer) with
          | None => throw (JsError (msg_tool_not_found ++ selectedName))
          | Some selectedTool =>
              closeUnselected allServerInfos selectedPath ;;;
              ret (mkSelection selectedServer selectedTool)
          end
      end
  end.

(** [selectServerScript] of index_anthoropic_api.ts and
    index_gemini_api.ts, which differ only in the model they call: [ask]
    is that one call, and returns the trimmed text of the response. *)
Definition selectServerScriptWith (convertTool : SdkTool -> Tool) (ask : jsstring -> M jsstring)
    (candidates : list jsstring) (query : jsstring) : M Selection :=
  allServerInfos <- discover convertTool candidates [] ;;
  if (length allServerInfos =? 0)%nat then
    throw (JsError (js "No suitable MCP server found."))
  else
    let allTools := aggregate allServerInfos in
    llmText <- ask (selectionPrompt query allTools) ;;
    resolveSelection allServerInfos llmText.

(** The text blocks of an Anthropic response, concatenated. *)
Definition blocksText (blocks : list ContentBlock) : jsstring :=
  join [] (map (fun c => match c with TextBlock t => t | _ => [] end) blocks).

Definition userMessage (text : JValue) : MessageParam := mkMessage (js "user") text.

Definition askAnthropic (prompt : jsstring) : M jsstring :=
  response <- await (messages_create env 200 [userMessage (JStr prompt)] None) ;;
  ret (trim (blocksText response)).

Definition askGemini (prompt : jsstring) : M jsstring :=
  result <- await (generateContent env (js "gemini-1.5-flash") prompt) ;;
  ret (trim result).

(** [s.includes(x)]. *)
Fixpoint startsWith (s x : jsstring) : bool :=
  match x, s with
  | [], _ => true
  | a :: x', b :: s' => N.eqb a b && startsWith s' x'
  | _ :: _, [] => false
  end.

Fixpoint includes (s x : jsstring) : bool :=
  startsWith s x ||
  match s with
  | [] => false
  | _ :: s' => includes s' x
  end.

(** The score of the substring variant: 2 for each tool whose name
    occurs in the query, 1 for each whose description contains it. *)
Definition score (query : jsstring) (ts : list Tool) : Z :=
  fold_left (fun acc tool =>
    let nameMatch :=
      if negb (isEmptyString (name tool)) && includes query (name tool) then 2 else 0 in
    let descMatch :=
      match description tool with
      | Some d => if negb (isEmptyString d) && includes d query then 1 else 0
      | None => 0
      end in
    acc + nameMatch + descMatch)%Z ts 0%Z.

(** The loop of the substring variant's [selectServerScript]. *)
Fixpoint scoreCandidates (query : jsstring) (candidates : list jsstring)
    (bestScore : Z) (best : option ServerInfo) : M (option ServerInfo) :=
  match candidates with
  | [] => ret best
  | p :: rest =>
      st <- try_catch
              (r <- getServerToolsWith convertTool p ;;
               let s := score query (fst r) in
               if (bestScore <? s)%Z then
                 match best with
                 | Some b => close (client b)
                 | None => ret tt
                 end ;;;
                 ret (s, Some (mkInfo p (fst r) (snd r)))
               else
                 close (snd r) ;;;
                 ret (bestScore, best))
              (fun _ => ret (bestScore, best)) ;;
      scoreCandidates query rest (fst st) (snd st)
  end.

(** [selectServerScript] of the substring variant. *)
Definition selectServerScript_by_score (candidates : list jsstring) (query : jsstring)
    : M ServerInfo :=
  best <- scoreCandidates query candidates (-1)%Z None ;;
  match best with
  | None => throw (JsError (js "No suitable MCP server found."))
  | Some b => ret b
  end.

(** [MCPClient.cleanup]. *)
Definition cleanup (mcp : ClientId) : M unit :=
  close mcp ;;; transport_close mcp.

(** *** Invoker, native mode *)

(** The loop over [response.content] in the Anthropic [processQuery];
    [messages] and [finalText] are the two arrays it appends to. *)
Fixpoint processBlocks (mcp : ClientId) (blocks : list ContentBlock)
    (messages : list MessageParam) (finalText : list jsstring) : M (list jsstring) :=
  match blocks with
  | [] => ret finalText
  | TextBlock text :: rest => processBlocks mcp rest messages (finalText ++ [text])
  | ToolUseBlock toolName toolArgs :: rest =>
      result <- callTool mcp toolName toolArgs ;;
      let finalText1 :=
        finalText ++ [js "[Calling tool " ++ toolName ++ js " with args "
                        ++ JSON_stringify toolArgs 0 ++ js "]"] in
      let messages1 := messages ++ [userMessage result] in
      response <- await (messages_create env 1000 messages1 None) ;;
      text <- match response with
              | [] => throw TypeError
              | TextBlock t :: _ => ret t
              | _ :: _ => ret []
              end ;;
      processBlocks mcp rest messages1 (finalText1 ++ [text])
  | OtherBlock :: rest => processBlocks mcp rest messages finalText
  end.

Definition processQuery_native (mcp : ClientId) (ts : list Tool) (query : jsstring) : M jsstring :=
  let messages := [userMessage (JStr query)] in
  response <- await (messages_create env 1000 messages (Some ts)) ;;
  finalText <- processBlocks mcp response messages [] ;;
  ret (join [10%N] finalText).

(** *** Invoker, prompt-derived mode *)

(** [item.type === "text" && typeof item.text === "string"]; reading a
    property of [null] throws. *)
Definition isTextItem (item : JValue) : exn + bool :=
  match item with
  | JNull => inl TypeError
  | JObj props =>
      inr match getProp (js "type") props with
          | Some (JStr t) =>
              str_eqb t (js "text") &&
              match getProp (js "text") props with
              | Some (JStr _) => true
              | _ => false
              end
          | _ => false
          end
  | _ => inr false
  end.

(** [content.filter(isTextItem)]. *)
Fixpoint filterTextItems (items : list JValue) : exn + list JValue :=
  match items with
  | [] => inr []
  | item :: rest =>
      match isTextItem item with
      | inl e => inl e
      | inr keep =>
          match filterTextItems rest with
          | inl e => inl e
          | inr kept => inr (if keep then item :: kept else kept)
          end
      end
  end.

(** [item.text] of an item that passed the filter. *)
Definition itemText (item : JValue) : jsstring :=
  match item with
  | JObj props =>
      match getProp (js "text") props with
      | Some (JStr t) => t
      | _ => []
      end
  | _ => []
  end.

(** The normalisation of [resultTool.content], as the text the answer
    prompt interpolates: the texts of an array's text items joined by
    blank lines, or else its pretty-printed form; an object (and [null],
    whose [typeof] is "object") pretty-printed; a string as it is; a number
    or boolean as the template literal prints it. *)
Definition normalizeContent (c : JValue) : exn + jsstring :=
  match c with
  | JArr items =>
      match filterTextItems items with
      | inl e => inl e
      | inr kept =>
          let texts := join [10%N; 10%N] (map itemText kept) in
          inr (if isEmptyString texts then JSON_stringify c 2 else texts)
      end
  | JObj _ | JNull => inr (JSON_stringify c 2)
  | JStr s => inr s
  | JNum z => inr (int_to_string z)
  | JBool b => inr (if b then js "true" else js "false")
  end.

Definition invocationToolList (ts : list Tool) : jsstring :=
  join [10%N]
    (imap (fun idx tool =>
             js "Tool" ++ nat_to_string (idx + 1) ++ js ": name='" ++ name tool
               ++ js "', description='" ++ descriptionText (description tool)
               ++ js "', input_schema=" ++ JSON_stringify (input_schema tool) 0)
          ts).

Definition invocationPrompt (query : jsstring) (ts : list Tool) : jsstring :=
  invocation_instruction ++ query_label ++ query ++ tool_list_label ++ invocationToolList ts.

Definition answerPrompt (query text : jsstring) : jsstring :=
  answer_question_label ++ query ++ answer_instruction ++ text ++ answer_end_marker.

Definition processQuery_prompted (mcp : ClientId) (ts : list Tool) (query : jsstring) : M jsstring :=
  result <- await (generateContent env (js "gemini-1.5-flash") (invocationPrompt query ts)) ;;
  let llmText := trim result in
  match String_match instruction_pattern llmText with
  | None => throw (JsError (msg_no_tool_instruction ++ llmText))
  | Some (g1, g2) =>
      let toolName := trim g1 in
      match JSON_parse g2 with
      | None => throw SyntaxError
      | Some toolArgs =>
          resultContent <- callTool mcp toolName toolArgs ;;
          text <- await (normalizeContent resultContent) ;;
          answerResult <- await (generateContent env (js "gemini-2.5-flash")
                                   (answerPrompt query text)) ;;
          ret (answer_label ++ trim answerResult)
      end
  end.

(** *** Session controller *)

(** One turn of the [while (true)] loop of [main], given the two lines
    the user types. Returning normally is reaching the next turn, by
    [continue] or by falling off the end of the body; an exception leaves
    [main]. What is printed is not kept. *)
Definition mainTurn (select : jsstring -> M Selection)
    (processQuery : ClientId -> list Tool -> jsstring -> M jsstring)
    (query confirm : jsstring) : M unit :=
  serverInfo <- try_catch (s <- select query ;; ret (Some s)) (fun _ => ret None) ;;
  match serverInfo with
  | None => ret tt
  | Some sel =>
      if negb (str_eqb (toLowerCase (trim confirm)) (js "ok")) then ret tt
      else
        let mcp := client (selectedServer sel) in
        try_finally
          (res <- processQuery mcp [selectedTool sel] query ;; ret tt)
          (cleanup mcp)
  end.

End Client.

(** The configured candidates. *)
Definition SERVER_CANDIDATES : list jsstring :=
  [ js "/Users/iida/Desktop/custom-mcp/link-ag-achievement/dist/index.js";
    js "/Users/iida/Desktop/mcp/weather-nodejs/build/index.js" ].

(** ** The variants *)

(** index_anthoropic_api.ts *)
Module AnthropicApi.

Definition getServerTools (env : Env) := getServerToolsWith env convertTool.

Definition selectServerScript (env : Env) (candidates : list jsstring) :=
  selectServerScriptWith env convertTool (askAnthropic env) candidates.

Definition processQuery (env : Env) := processQuery_native env.

Definition mainTurn (env : Env) (candidates : list jsstring) :=
  mainTurn (selectServerScript env candidates) (processQuery env).

End AnthropicApi.

(** index_gemini_api.ts *)
Module GeminiApi.

Definition getServerTools (env : Env) := getServerToolsWith env convertToolGemini.

Definition selectServerScript (env : Env) (candidates : list jsstring) :=
  selectServerScriptWith env convertToolGemini (askGemini env) candidates.

Definition processQuery (env : Env) := processQuery_prompted env.

Definition mainTurn (env : Env) (candidates : list jsstring) :=
  mainTurn (selectServerScript env candidates) (processQuery env).

End GeminiApi.

(** The variant that scores servers by substring containment. *)
Module ScoreVariant.

Definition selectServerScript (env : Env) := selectServerScript_by_score env.

End ScoreVariant.

(** The variant that is given one server on the command line. *)
Module SingleServer.

Definition connectToServer (env : Env) := connectToServer_single env.

End SingleServer.

(** ** What discovery finds, stated on the environment *)

Section DiscoverySpec.

Variable env : Env.

Definition commandFor (p : jsstring) : jsstring :=
  launchCommand env (endsWith p (js ".py")).

(** The three ways the discovery of one candidate can go. *)
Inductive Probe :=
| SpawnFails (e : exn)
| ListFails (e : exn)
| Reachable (ts : list SdkTool).

Definition probe (p : jsstring) : Probe :=
  match connect_outcome env (commandFor p) p with
  | Some e => SpawnFails e
  | None =>
      match listTools_outcome env p with
      | inl e => ListFails e
      | inr ts => Reachable ts
      end
  end.

Definition isReachable (p : jsstring) : bool :=
  match probe p with Reachable _ => true | _ => false end.

(** The registry of the specification: the advertised tools of the
    reachable candidates, candidate by candidate. *)
Definition registry (convertTool : SdkTool -> Tool) (candidates : list jsstring)
    : list (jsstring * Tool) :=
  flat_map (fun p =>
    match probe p with
    | Reachable ts => map (fun t => (p, convertTool t)) ts
    | _ => []
    end) candidates.

(** The entries discovery records, when the first candidate gets client
    [n]. *)
Fixpoint discovered (convertTool : SdkTool -> Tool) (candidates : list jsstring)
    (n : ClientId) : list ServerInfo :=
  match candidates with
  | [] => []
  | p :: rest =>
      match probe p with
      | Reachable ts => mkInfo p (map convertTool ts) n :: discovered convertTool rest (S n)
      | _ => discovered convertTool rest (S n)
      end
  end.

(** The clients of the candidates that were connected and then failed
    to list their tools. *)
Fixpoint halfOpen (candidates : list jsstring) (n : ClientId) : gset ClientId :=
  match candidates with
  | [] => ∅
  | p :: rest =>
      match probe p with
      | ListFails _ => {[n]} ∪ halfOpen rest (S n)
      | _ => halfOpen rest (S n)
      end
  end.

(** The clients discovery connects: every candidate that got past its spawn. *)
Fixpoint connected (candidates : list jsstring) (n : ClientId) : gset ClientId :=
  match candidates with
  | [] => ∅
  | p :: rest =>
      match probe p with
      | SpawnFails _ => connected rest (S n)
      | _ => {[n]} ∪ connected rest (S n)
      end
  end.

Definition clientsOf (infos : list ServerInfo) : gset ClientId :=
  list_to_set (map client infos).

End DiscoverySpec.

(** Clients are numbered as they are made: the connected ones are
    among those already made. *)
Definition wfWorld (w : World) : Prop :=
  forall c, c ∈ open_conns w -> c < next_client w.

Definition initial_world : World := mkWorld 0 ∅ [] [].

(** ** Vocabulary of the properties *)

(** A model call that leaves the world as it is. *)
Definition pureCall (ask : jsstring -> M jsstring) : Prop :=
  forall p w, snd (ask p w) = w.

Definition clientOpt (best : option ServerInfo) : gset ClientId :=
  match best with
  | Some b => {[client b]}
  | None => ∅
  end.

Definition isTextBlock (b : ContentBlock) : bool :=
  match b with TextBlock _ => true | _ => false end.

Definition blockTexts (blocks : list ContentBlock) : list jsstring :=
  omap (fun b => match b with TextBlock t => Some t | _ => None end) blocks.

(** The answer the controller takes as a confirmation. *)
Definition affirmative (confirm : jsstring) : bool :=
  str_eqb (toLowerCase (trim confirm)) (js "ok").


(** The error taxonomy of the specification, as the messages of the
    three [throw] statements. *)
Inductive SelectorError :=
| SelectionParseError (raw : jsstring)
| UnknownBackendSelected (backend_id : jsstring)
| UnknownToolSelected (tool_name : jsstring).

Definition selectorThrows (e : SelectorError) : exn :=
  match e with
  | SelectionParseError raw => JsError (msg_no_tool_selection ++ raw)
  | UnknownBackendSelected p => JsError (msg_server_not_found ++ p)
  | UnknownToolSelected n => JsError (msg_tool_not_found ++ n)
  end.

(** *** Patterns *)

(** What it means for a pattern to match a prefix of [s], leaving [r] as
    the marks: the declarative reading of the pattern language. *)
Fixpoint Derives (re : Regex) (s : jsstring) (marks r : list jsstring) : Prop :=
  match re with
  | [] => r = marks
  | Char cls :: re' =>
      exists c s', s = c :: s' /\ classMatches cls c = true /\ Derives re' s' marks r
  | GroupOpen :: re' => Derives re' s (s :: marks) r
  | GroupClose :: re' => Derives re' s (s :: marks) r
  | Star _ cls :: re' =>
      exists xs s', s = xs ++ s' /\ forallb (classMatches cls) xs = true
                    /\ Derives re' s' marks r
  end.

Definition noLineTerminator (s : jsstring) : Prop :=
  forallb (classMatches Dot) s = true.

Definition allSpace (s : jsstring) : Prop :=
  forallb (classMatches Space) s = true.

(** The response has the selector's format somewhere in it. *)
Definition SelectionFormat (text : jsstring) : Prop :=
  exists pre p ws post,
    text = pre ++ js "path=" ++ p ++ js "," ++ ws ++ js "name=" ++ post
    /\ noLineTerminator p /\ allSpace ws.


(** *** JSON texts *)

(** What may follow a number: not a digit, and no fraction or exponent. *)
Definition numberEnds (rest : jsstring) : Prop :=
  match rest with
  | [] => True
  | c :: _ => digitOf c = None /\ startsFraction rest = false
  end.

Definition isNormal (d : Decimal.uint) : Prop := Decimal.unorm d = d.

Section JValue_induction.
Variable P : JValue -> Prop.
Hypothesis Hnull : P JNull.
Hypothesis Hbool : forall b, P (JBool b).
Hypothesis Hnum : forall z, P (JNum z).
Hypothesis Hstr : forall s, P (JStr s).
Hypothesis Harr : forall items, Forall P items -> P (JArr items).
Hypothesis Hobj : forall props, Forall (fun kv => P (snd kv)) props -> P (JObj props).

Fixpoint JValue_nested_ind (v : JValue) : P v :=
  match v with
  | JNull => Hnull
  | JBool b => Hbool b
  | JNum z => Hnum z
  | JStr s => Hstr s
  | JArr items =>
      Harr items
        ((fix go (l : list JValue) : Forall P l :=
            match l with
            | [] => @List.Forall_nil _ P
            | x :: l' => @List.Forall_cons _ P x l' (JValue_nested_ind x) (go l')
            end) items)
  | JObj props =>
      Hobj props
        ((fix go (l : list (jsstring * JValue)) : Forall (fun kv => P (snd kv)) l :=
            match l with
            | [] => @List.Forall_nil _ _
            | kv :: l' => @List.Forall_cons _ (fun kv => P (snd kv)) kv l' (JValue_nested_ind (snd kv)) (go l')
            end) props)
  end.
End JValue_induction.

(** The fuel the parser spends on the text of [v]. *)
Fixpoint need (v : JValue) : nat :=
  match v with
  | JArr items => S (fold_right (fun x acc => S (need x) + acc) 0 items)
  | JObj props => S (fold_right (fun kv acc => S (let '(_, x) := kv in need x) + acc) 0 props)
  | _ => 1
  end.

(** A value as JavaScript holds it: numbers are safe integers, and the
    properties of every object are listed in the order in which the
    object enumerates them. *)
Fixpoint Canonical (v : JValue) : Prop :=
  match v with
  | JNum z => (Z.abs z <= 9007199254740991)%Z
  | JArr items => fold_right (fun x acc => Canonical x /\ acc) True items
  | JObj props =>
      objectOfMembers props = props
      /\ fold_right (fun kv acc => (let '(_, x) := kv in Canonical x) /\ acc) True props
  | _ => True
  end.

Definition allWS (s : jsstring) : Prop := forallb isJSONWhiteSpace s = true.

(** The first code unit of a serialized value. *)
Definition valueStart (c : N) : Prop :=
  isJSONWhiteSpace c = false /\ c <> 93%N /\ c <> 125%N.

(** A non-empty partial list, wrapped: after the opening bracket every
    item is preceded by [lead], and [trail] precedes the closing bracket. *)
Definition leadOf (gap indent : jsstring) : jsstring :=
  if isEmptyString gap then [] else 10%N :: indent.

Definition ParsesBack (gap : jsstring) (v : JValue) : Prop :=
  forall indent ws rest fuel,
    allWS indent -> allWS ws -> Canonical v -> numberEnds rest -> need v <= fuel ->
    parseValue fuel (ws ++ serializeJSON gap indent v ++ rest) = Some (v, rest).

Definition memberText (gap indent : jsstring) (kv : jsstring * JValue) : jsstring :=
  let '(k, x) := kv in
  quoteJSONString k ++ 58%N :: (if isEmptyString gap then [] else [32%N])
    ++ serializeJSON gap indent x.

(** ** A small environment for examples *)

Definition weather_js : jsstring := js "/srv/weather.js".
Definition notes_py : jsstring := js "/srv/notes.py".
Definition down_js : jsstring := js "/srv/down.js".

Definition get_weather : SdkTool :=
  mkSdkTool (js "get_weather") (Some (js "returns current weather"))
    (JObj [(js "type", JStr (js "object"))]).

Definition textItem (t : jsstring) : JValue :=
  JObj [(js "type", JStr (js "text")); (js "text", JStr t)].

(** The weather server is reachable, the notes server connects and then
    fails to list its tools, the third does not start. The models answer
    the selection prompt with [selection_reply] and the invocation with
    [instruction_reply]. *)
Definition demo_env (selection_reply instruction_reply : jsstring) : Env :=
  {| platform := js "linux";
     execPath := js "/usr/bin/node";
     connect_outcome := fun _ script =>
       if str_eqb script down_js then Some (Rejected 1) else None;
     listTools_outcome := fun script =>
       if str_eqb script weather_js then inr [get_weather]
       else if str_eqb script notes_py then inl (Rejected 2)
       else inr [];
     callTool_outcome := fun _ _ _ => inr (JArr [textItem (js "sunny")]);
     messages_create := fun _ _ ts =>
       match ts with
       | Some _ => inr [TextBlock instruction_reply]
       | None => inr [TextBlock selection_reply]
       end;
     generateContent := fun _ prompt =>
       if startsWith prompt selection_instruction then inr selection_reply
       else if startsWith prompt invocation_instruction then inr instruction_reply
       else inr (js "It is sunny.") |}.

Definition weather_reply : jsstring := js "path=/srv/weather.js, name=get_weather".
(** The argument text of the example, an object with one string member. *)
Definition tokyo_args_text : jsstring :=
  js "{" ++ quoteJSONString (js "location") ++ js ":" ++ quoteJSONString (js "Tokyo") ++ js "}".

Definition tokyo_reply : jsstring := js "name=get_weather, args=" ++ tokyo_args_text.

(** The text of a text item, as the specification reads it. *)
Definition textOf (item : JValue) : option jsstring :=
  match item with
  | JObj props =>
      match getProp (js "type") props, getProp (js "text") props with
      | Some (JStr t), Some (JStr x) => if str_eqb t (js "text") then Some x else None
      | _, _ => None
      end
  | _ => None
  end.

Definition tokyo_query : jsstring := js "What's the weather in Tokyo?".

(** A world in which client 0 is connected. *)
Definition connected_world : World := mkWorld 1 {[0]} [] [].

Definition weather_info : ServerInfo := mkInfo weather_js [convertTool get_weather] 0.

Definition sample_result : JValue :=
  JObj [(js "city", JStr (js "Tokyo")); (js "temp", JNum 21);
        (js "tags", JArr [JBool true; JNull; JStr [10%N; 34%N; 55357%N]])].

(** A response in the format whose arguments are not JSON. *)
Definition broken_reply : jsstring := js "name=get_weather, args={location: Tokyo}".

(** ** The path-selecting variant *)

(** The instruction of the prompt that asks for a server path. *)
Definition server_instruction : jsstring :=
  [
   12354; 12394; 12383; 12399; 12518; 12540; 12470; 12540; 12398; 12463; 12456; 12522;
   12395; 26368; 12418; 36969; 12375; 12383; 77; 67; 80; 12469; 12540; 12496; 12540;
   12434; 36984; 25246; 12377; 12427; 65; 73; 12391; 12377; 12290; 12469; 12540; 12496;
   12540; 12372; 12392; 12398; 12484; 12540; 12523; 24773; 22577; 12434; 21442; 32771;
   12395; 12289; 26368; 12418; 38306; 36899; 24615; 12364; 39640; 12356; 12469; 12540;
   12496; 12540; 12398; 112; 97; 116; 104; 12398; 12415; 12434; 21427; 23494; 12395; 49;
   12388; 12384; 12369; 20986; 21147; 12375; 12390; 12367; 12384; 12373; 12356; 12290;
   29702; 30001; 12420; 35500; 26126; 12399; 19981; 35201; 12391; 12377; 12290
  ]%N.

(** The label before the list of servers. *)
Definition server_list_label : jsstring :=
  [
   10; 10; 21033; 29992; 21487; 33021; 12394; 12469; 12540; 12496; 12540; 12392; 12484;
   12540; 12523; 58; 10
  ]%N.

(** The word before the number of a server. *)
Definition server_label : jsstring :=
  [
   12469; 12540; 12496; 12540
  ]%N.

(** Message of the path-selecting variant when no path occurs in the
    response. *)
Definition msg_no_server_path : jsstring :=
  [
   76; 76; 77; 12364; 26377; 21177; 12394; 12469; 12540; 12496; 12540; 12497; 12473;
   12434; 36820; 12375; 12414; 12379; 12435; 12391; 12375; 12383; 58; 32
  ]%N.

(** The list of servers of the path-selecting variant: a line for each
    server, followed by an indented line for each of its tools. *)
Definition serverListText (allServerInfos : list ServerInfo) : jsstring :=
  join [10%N; 10%N]
    (imap (fun idx info =>
             let toolDescs :=
               join [10%N]
                 (imap (fun tIdx tool =>
                          js "  Tool" ++ nat_to_string (tIdx + 1) ++ js ": name='" ++ name tool
                            ++ js "', description='" ++ descriptionText (description tool)
                            ++ js "'")
                       (tools info)) in
             server_label ++ nat_to_string (idx + 1) ++ js ": path='" ++ path info
               ++ js "'" ++ [10%N] ++ toolDescs)
          allServerInfos).

Definition serverPrompt (query : jsstring) (allServerInfos : list ServerInfo) : jsstring :=
  server_instruction ++ query_label ++ query ++ server_list_label
    ++ serverListText allServerInfos.

(** [selectServerScript] of the path-selecting variant: the first server
    whose path occurs in the response is the selected one. An empty path
    is falsy, so it is refused like a missing one. The entry is looked up
    again by its path, the others are closed, and only then is the entry
    used. What is printed is not kept. *)
Definition selectServerScript_by_path (env : Env) (candidates : list jsstring)
    (query : jsstring) : M ServerInfo :=
  allServerInfos <- discover env convertTool candidates [] ;;
  if (length allServerInfos =? 0)%nat then
    throw (JsError (js "No suitable MCP server found."))
  else
    llmText <- askAnthropic env (serverPrompt query allServerInfos) ;;
    match option_map path
            (List.find (fun info => includes llmText (path info)) allServerInfos) with
    | None => throw (JsError (msg_no_server_path ++ llmText))
    | Some selectedPath =>
        if isEmptyString selectedPath then
          throw (JsError (msg_no_server_path ++ llmText))
        else
          let selected :=
            List.find (fun info => str_eqb (path info) selectedPath) allServerInfos in
          closeUnselected allServerInfos selectedPath ;;;
          match selected with
          | Some s => ret s
          | None => throw TypeError
          end
    end.

Module PathVariant.
Definition selectServerScript (env : Env) := selectServerScript_by_path env.
End PathVariant.

(** ** Chat loops and entry points *)

(** How far a program has got on the lines typed so far. *)
Inductive Run :=
| Waiting
| Returned
| Exited (code : Z).

(** [MCPClient.chatLoop] of the three chat variants, on the lines typed
    so far: it is [Waiting] in [rl.question] when they are used up. The
    line is compared in lower case and untrimmed; only Q, U, I and T have
    q, u, i or t as their lower case, so [toLowerCase] decides the
    comparison as JavaScript does. What is printed is not kept. *)
Fixpoint chatLoop (processQuery : jsstring -> M jsstring) (lines : list jsstring) : M Run :=
  match lines with
  | [] => ret Waiting
  | message :: rest =>
      if str_eqb (toLowerCase message) (js "quit") then ret Returned
      else
        processQuery message ;;;
        chatLoop processQuery rest
  end.

(** [try { body } finally { fin; process.exit(code) }], for a body that
    may still be waiting for input. *)
Definition finally_exit (body : M Run) (fin : M unit) (code : Z) : M Run :=
  fun w =>
    match body w with
    | (Normal Waiting, w') => (Normal Waiting, w')
    | (_, w') => (fin ;;; ret (Exited code)) w'
    end.

(** [main] of the single-server variant; [argv] is [process.argv]. Its
    [cleanup] closes the client only. *)
Definition main_single (env : Env) (argv lines : list jsstring) : M Run :=
  if (length argv <? 3)%nat then ret Returned
  else
    mcpClient <- newClient ;;
    finally_exit
      (ts <- SingleServer.connectToServer env mcpClient (default [] (argv !! 2)) ;;
       chatLoop (processQuery_native env mcpClient ts) lines)
      (close mcpClient)
      0.

(** [main] of the two variants that select one server for the whole
    chat: the first line is the query the server is selected for. *)
Definition main_selected (env : Env) (select : jsstring -> M ServerInfo)
    (lines : list jsstring) : M Run :=
  match lines with
  | [] => ret Waiting
  | query :: rest =>
      sel <- select query ;;
      finally_exit
        (chatLoop (processQuery_native env (client sel) (tools sel)) rest)
        (cleanup (client sel))
        0
  end.

(** The [while (true)] loop of [main] in index_anthoropic_api.ts and
    index_gemini_api.ts: a turn reads the query, and the confirmation
    only once a tool was selected. *)
Fixpoint mainLoop (select : jsstring -> M Selection)
    (processQuery : ClientId -> list Tool -> jsstring -> M jsstring)
    (lines : list jsstring) : M Run :=
  match lines with
  | [] => ret Waiting
  | query :: rest =>
      serverInfo <- try_catch (s <- select query ;; ret (Some s)) (fun _ => ret None) ;;
      match serverInfo with
      | None => mainLoop select processQuery rest
      | Some sel =>
          match rest with
          | [] => ret Waiting
          | confirm :: rest' =>
              if negb (str_eqb (toLowerCase (trim confirm)) (js "ok")) then
                mainLoop select processQuery rest'
              else
                let mcp := client (selectedServer sel) in
                try_finally
                  (res <- processQuery mcp [selectedTool sel] query ;; ret tt)
                  (cleanup mcp) ;;;
                mainLoop select processQuery rest'
          end
      end
  end.

Definition main_anthropic (env : Env) (candidates : list jsstring) :=
  mainLoop (AnthropicApi.selectServerScript env candidates) (AnthropicApi.processQuery env).

Definition main_gemini (env : Env) (candidates : list jsstring) :=
  mainLoop (GeminiApi.selectServerScript env candidates) (GeminiApi.processQuery env).

Definition main_by_score (env : Env) (candidates : list jsstring) :=
  main_selected env (ScoreVariant.selectServerScript env candidates).

Definition main_by_path (env : Env) (candidates : list jsstring) :=
  main_selected env (PathVariant.selectServerScript env candidates).

(** A line that ends the chat. *)
Definition isQuit (message : jsstring) : bool := str_eqb (toLowerCase message) (js "quit").

(** ** Further vocabulary *)

(** The tool-use blocks of a response, as the calls they become. *)
Definition toolUses (mcp : ClientId) (blocks : list ContentBlock) : list ToolCall :=
  omap (fun b => match b with
                 | ToolUseBlock nm args => Some (mkCall mcp nm args)
                 | _ => None
                 end) blocks.

Definition isNormal_completion {A} (c : Completion A) : bool :=
  match c with Normal _ => true | Throw _ => false end.

(** The running maximum of the scoring loop over the entries of the
    reachable servers: a later entry replaces the best one only with a
    strictly greater score. *)
Fixpoint bestOf (query : jsstring) (infos : list ServerInfo) (bestScore : Z)
    (best : option ServerInfo) : option ServerInfo :=
  match infos with
  | [] => best
  | i :: rest =>
      if (bestScore <? score query (tools i))%Z
      then bestOf query rest (score query (tools i)) (Some i)
      else bestOf query rest bestScore best
  end.

(** No comma and no line terminator: what a path or a tool name must
    be made of for the lazy first group to stop at the separator. *)
Definition plainField (s : jsstring) : Prop :=
  forallb (fun c => negb (N.eqb c 44) && negb (isLineTerminator c)) s = true.

(** A value whose numbers are safe integers and whose objects have
    pairwise distinct keys, none of them an array index. *)
Fixpoint PlainKeys (v : JValue) : Prop :=
  match v with
  | JNum z => (Z.abs z <= 9007199254740991)%Z
  | JArr items => fold_right (fun x acc => PlainKeys x /\ acc) True items
  | JObj props =>
      NoDup (map fst props)
      /\ Forall (fun kv => arrayIndex (fst kv) = None) props
      /\ fold_right (fun kv acc => (let '(_, x) := kv in PlainKeys x) /\ acc) True props
  | _ => True
  end.

Definition tokyo_args : JValue := JObj [(js "location", JStr (js "Tokyo"))].

(** The example environment with a model that answers a query by a text
    block and a tool-use block. *)
Definition tool_use_env : Env :=
  let base := demo_env weather_reply tokyo_reply in
  {| platform := platform base;
     execPath := execPath base;
     connect_outcome := connect_outcome base;
     listTools_outcome := listTools_outcome base;
     callTool_outcome := callTool_outcome base;
     messages_create := fun _ _ ts =>
       match ts with
       | Some _ => inr [TextBlock (js "Let me check."); ToolUseBlock (js "get_weather") tokyo_args]
       | None => inr [TextBlock (js "It is sunny.")]
       end;
     generateContent := generateContent base |}.

(** [process.argv] of the single-server example. *)
Definition weather_argv : list jsstring := [js "/usr/bin/node"; js "build/index.js"; weather_js].

(** * Properties *)

Arguments js : simpl never.

(** ** Discovery and selection *)

Section DiscoveryFacts.
Variable env : Env.
Variable convertTool : SdkTool -> Tool.

Lemma getServerTools_probe p w :
  getServerToolsWith env convertTool p w =
  let n := next_client w in
  let sp := spawns w ++ [(commandFor env p, p)] in
  match probe env p with
  | SpawnFails e => (Throw e, mkWorld (S n) (open_conns w) sp (calls w))
  | ListFails e => (Throw e, mkWorld (S n) ({[n]} ∪ open_conns w) sp (calls w))
  | Reachable ts => (Normal (map convertTool ts, n), mkWorld (S n) ({[n]} ∪ open_conns w) sp (calls w))
  end.
Proof.
  unfold getServerToolsWith, probe, commandFor, bind, newClient, connect, listTools, await, ret, throw.
  simpl.
  destruct (connect_outcome env _ p); [reflexivity|].
  destruct (listTools_outcome env p); reflexivity.
Qed.

Lemma world_eq n n' o o' s s' c c' :
  n = n' -> o = o' -> s = s' -> c = c' -> mkWorld n o s c = mkWorld n' o' s' c'.
Proof. congruence. Qed.

Lemma discover_spec cands : forall acc w,
  discover env convertTool cands acc w =
  (Normal (acc ++ discovered env convertTool cands (next_client w)),
   mkWorld (next_client w + length cands)
           (connected env cands (next_client w) ∪ open_conns w)
           (spawns w ++ map (fun p => (commandFor env p, p)) cands)
           (calls w)).
Proof.
  induction cands as [|p rest IH]; intros acc w; simpl.
  - unfold ret. destruct w; simpl. f_equal; [by rewrite app_nil_r|].
    apply world_eq; [lia | set_solver | by rewrite app_nil_r | done].
  - unfold bind at 1. unfold try_catch. unfold bind at 1.
    rewrite getServerTools_probe. cbv zeta.
    destruct (probe env p) as [e|e|ts]; cbn [ret fst snd]; rewrite IH;
      cbn [next_client open_conns spawns calls]; rewrite <- ?app_assoc; simpl;
      (f_equal; apply world_eq; [lia | set_solver | done | done]).
Qed.

Lemma aggregate_discovered cands : forall n,
  aggregate (discovered env convertTool cands n) = registry env convertTool cands.
Proof.
  induction cands as [|p rest IH]; intros n; simpl; [done|].
  destruct (probe env p); unfold aggregate in *; simpl; rewrite ?IH, ?List.map_map; done.
Qed.

Lemma discovered_paths cands : forall n,
  map path (discovered env convertTool cands n) = List.filter (isReachable env) cands.
Proof.
  induction cands as [|p rest IH]; intros n; simpl; [done|].
  unfold isReachable at 1.
  destruct (probe env p); simpl; by rewrite IH.
Qed.

Lemma discovered_client_range cands : forall n info,
  info ∈ discovered env convertTool cands n -> n <= client info < n + length cands.
Proof.
  induction cands as [|p rest IH]; intros n info; simpl; [by intros ?%elem_of_nil|].
  destruct (probe env p); rewrite ?elem_of_cons; intros H;
    try (destruct H as [->|H]; [simpl; lia|]); apply IH in H; lia.
Qed.

Lemma halfOpen_range cands : forall n c,
  c ∈ halfOpen env cands n -> n <= c < n + length cands.
Proof.
  induction cands as [|p rest IH]; intros n c; simpl; [set_solver|].
  destruct (probe env p); rewrite ?elem_of_union, ?elem_of_singleton; intros H;
    try (destruct H as [->|H]; [lia|]); apply IH in H; lia.
Qed.

Lemma connected_split cands : forall n,
  connected env cands n = clientsOf (discovered env convertTool cands n) ∪ halfOpen env cands n.
Proof.
  induction cands as [|p rest IH]; intros n; simpl.
  - unfold clientsOf. set_solver.
  - specialize (IH (S n)). unfold clientsOf in *.
    destruct (probe env p); simpl; rewrite IH; set_solver.
Qed.

Lemma halfOpen_not_discovered cands : forall n info,
  info ∈ discovered env convertTool cands n -> client info ∉ halfOpen env cands n.
Proof.
  induction cands as [|p rest IH]; intros n info; simpl; [by intros ?%elem_of_nil|].
  destruct (probe env p); rewrite ?elem_of_cons; intros H.
  - by apply IH.
  - rewrite elem_of_union, elem_of_singleton. intros [E|E].
    + apply discovered_client_range in H. lia.
    + by apply IH in H.
  - destruct H as [->|H]; simpl.
    + intros E%halfOpen_range. lia.
    + by apply IH.
Qed.

Lemma discovered_same_client cands : forall n a b,
  a ∈ discovered env convertTool cands n -> b ∈ discovered env convertTool cands n ->
  client a = client b -> a = b.
Proof.
  induction cands as [|p rest IH]; intros n a b; simpl; [by intros ?%elem_of_nil|].
  destruct (probe env p); rewrite ?elem_of_cons; try apply IH.
  intros [->|Ha] [->|Hb]; simpl; try done.
  - apply discovered_client_range in Hb. lia.
  - apply discovered_client_range in Ha. lia.
  - by apply (IH (S n)).
Qed.

Lemma closeUnselected_spec infos sel : forall w,
  closeUnselected infos sel w =
  (Normal tt,
   mkWorld (next_client w)
     (open_conns w ∖ clientsOf (filter (fun i => path i ≠ sel) infos))
     (spawns w) (calls w)).
Proof.
  unfold closeUnselected, clientsOf.
  induction infos as [|i rest IH]; intros w; simpl.
  - unfold ret. destruct w; simpl. f_equal. apply world_eq; try done. set_solver.
  - unfold bind at 1. rewrite filter_cons. unfold str_eqb.
    destruct (decide (path i ≠ sel)) as [Hne|Heq].
    + rewrite bool_decide_eq_false_2 by done. simpl.
      unfold bind at 1, close, transport_close, close. simpl. rewrite IH. simpl.
      f_equal. apply world_eq; try done. set_solver.
    + rewrite bool_decide_eq_true_2 by (by destruct (decide (path i = sel)); [|exfalso; apply Heq]).
      simpl. unfold ret at 1. rewrite IH. done.
Qed.

Lemma resolveSelection_success infos llmText w sel w' :
  resolveSelection infos llmText w = (Normal sel, w') ->
  exists g1 g2,
    String_match selection_pattern llmText = Some (g1, g2)
    /\ List.find (fun info => str_eqb (path info) (trim g1)) infos = Some (selectedServer sel)
    /\ List.find (fun t => str_eqb (name t) (trim g2)) (tools (selectedServer sel))
       = Some (selectedTool sel)
    /\ w' = mkWorld (next_client w)
              (open_conns w ∖ clientsOf (filter (fun i => path i ≠ trim g1) infos))
              (spawns w) (calls w).
Proof.
  unfold resolveSelection.
  destruct (String_match selection_pattern llmText) as [[g1 g2]|]; [|discriminate].
  destruct (List.find _ infos) as [srv|] eqn:Hsrv; [|discriminate].
  destruct (List.find _ (tools srv)) as [t|] eqn:Ht; [|discriminate].
  unfold bind. rewrite closeUnselected_spec. unfold ret. intros [= <- <-].
  exists g1, g2. simpl. done.
Qed.

Lemma NoDup_map_inj {A B} (f : A -> B) (l : list A) x y :
  NoDup (map f l) -> x ∈ l -> y ∈ l -> f x = f y -> x = y.
Proof.
  induction l as [|a l IH]; simpl; [by intros _ ?%elem_of_nil|].
  rewrite NoDup_cons, !elem_of_cons. intros [Ha Hl] [->|Hx] [->|Hy] E; try done.
  - exfalso. apply Ha. rewrite E. apply list_elem_of_fmap. eauto.
  - exfalso. apply Ha. rewrite <- E. apply list_elem_of_fmap. eauto.
  - by apply IH.
Qed.

Lemma NoDup_filter_bool {A} (f : A -> bool) (l : list A) :
  NoDup l -> NoDup (List.filter f l).
Proof.
  induction 1 as [|a l Ha Hl IH]; simpl; [constructor|].
  destruct (f a); [|done]. constructor; [|done].
  rewrite list_elem_of_In, filter_In, <- list_elem_of_In. tauto.
Qed.

(** What stays connected when the selected entry is the only one with
    its path. *)
Lemma kept_after_selection cands n (open : gset ClientId) srv :
  NoDup cands ->
  (forall c, c ∈ open -> c < n) ->
  srv ∈ discovered env convertTool cands n ->
  (connected env cands n ∪ open)
    ∖ clientsOf (filter (fun i => path i ≠ path srv) (discovered env convertTool cands n))
  = open ∪ halfOpen env cands n ∪ {[client srv]}.
Proof.
  intros Hnd Hwf Hsrv.
  assert (Hpaths : NoDup (map path (discovered env convertTool cands n))).
  { rewrite discovered_paths. by apply NoDup_filter_bool. }
  rewrite connected_split. apply set_eq. intros c.
  unfold clientsOf.
  rewrite elem_of_difference, !elem_of_union, elem_of_singleton, !elem_of_list_to_set,
    !list_elem_of_fmap.
  split.
  - intros [[[[i [-> Hi]]|Hh]|Ho] Hnot]; try tauto.
    destruct (decide (path i = path srv)) as [E|E].
    + right. f_equal. by apply (NoDup_map_inj path (discovered env convertTool cands n)).
    + exfalso. apply Hnot. exists i. split; [done|]. by apply list_elem_of_filter.
  - intros [[Ho|Hh]| ->].
    + split; [tauto|]. intros [i [-> [_ Hi]%list_elem_of_filter]].
      apply discovered_client_range in Hi. apply Hwf in Ho. lia.
    + split; [tauto|]. intros [i [-> [_ Hi]%list_elem_of_filter]].
      by apply halfOpen_not_discovered in Hi.
    + split; [left; left; eauto|].
      intros [i [E [Hne Hi]%list_elem_of_filter]]. apply Hne. f_equal.
      symmetry. by apply (discovered_same_client cands n).
Qed.

Lemma askAnthropic_pure : pureCall (askAnthropic env).
Proof.
  intros p w. unfold askAnthropic, bind, await, throw, ret.
  by destruct (messages_create env 200 _ None).
Qed.

Lemma askGemini_pure : pureCall (askGemini env).
Proof.
  intros p w. unfold askGemini, bind, await, throw, ret.
  by destruct (generateContent env _ p).
Qed.

Lemma select_success ask cands query w sel w' :
  pureCall ask ->
  selectServerScriptWith env convertTool ask cands query w = (Normal sel, w') ->
  let n := next_client w in
  selectedServer sel ∈ discovered env convertTool cands n
  /\ selectedTool sel ∈ tools (selectedServer sel)
  /\ next_client w' = n + length cands
  /\ calls w' = calls w
  /\ open_conns w' =
       (connected env cands n ∪ open_conns w)
         ∖ clientsOf (filter (fun i => path i ≠ path (selectedServer sel))
                        (discovered env convertTool cands n)).
Proof.
  intros Hask. unfold selectServerScriptWith. unfold bind at 1. rewrite discover_spec.
  simpl. destruct (length _ =? 0); [discriminate|].
  unfold bind. specialize (Hask (selectionPrompt query (aggregate (discovered env convertTool cands (next_client w))))).
  match goal with |- context [ask ?p ?w0] => specialize (Hask w0); destruct (ask p w0) as [[llmText|e] w1] end;
    [|discriminate].
  simpl in Hask. subst w1. intros (g1 & g2 & _ & Hsrv & Ht & ->)%resolveSelection_success.
  apply find_some in Hsrv as [Hin Hp]. apply find_some in Ht as [Hint _].
  apply bool_decide_eq_true_1 in Hp. rewrite <- Hp.
  rewrite <- !list_elem_of_In in *. simpl. done.
Qed.

End DiscoveryFacts.

Section ScoreFacts.
Variable env : Env.

Lemma score_nonneg query ts : (0 <= score query ts)%Z.
Proof.
  unfold score.
  assert (H : forall acc, (0 <= acc)%Z ->
    (0 <= fold_left (fun acc tool =>
      (acc + (if negb (isEmptyString (name tool)) && includes query (name tool) then 2 else 0)
       + match description tool with
         | Some d => if negb (isEmptyString d) && includes d query then 1 else 0
         | None => 0
         end)%Z) ts acc)%Z).
  { induction ts as [|t ts IH]; intros acc Hacc; simpl; [done|]. apply IH.
    destruct (negb _ && _); destruct (description t) as [d|]; try destruct (negb _ && _); lia. }
  by apply H.
Qed.

Lemma scoreCandidates_spec query cands : forall bs best w,
  wfWorld w ->
  (forall b, best = Some b -> client b ∈ open_conns w) ->
  (best = None -> (bs < 0)%Z) ->
  exists best' w',
    scoreCandidates env query cands bs best w = (Normal best', w')
    /\ next_client w' = next_client w + length cands
    /\ calls w' = calls w
    /\ (forall b', best' = Some b' -> client b' ∈ open_conns w')
    /\ open_conns w' ∖ clientOpt best'
       = (open_conns w ∖ clientOpt best) ∪ halfOpen env cands (next_client w)
    /\ (best' = None -> best = None /\ forall p, p ∈ cands -> isReachable env p = false).
Proof.
  induction cands as [|p rest IH]; intros bs best w Hwf Hbest Hbs; simpl.
  - exists best, w. unfold ret. repeat split; try done; try lia; try set_solver.
  - unfold bind at 1. unfold try_catch. unfold bind at 1.
    rewrite getServerTools_probe. cbv zeta. unfold isReachable.
    assert (Hfresh : next_client w ∉ open_conns w).
    { intros H%Hwf. lia. }
    assert (Hnb : next_client w ∉ clientOpt best).
    { destruct best as [b|]; simpl; [|set_solver].
      specialize (Hbest b eq_refl). apply Hwf in Hbest. set_solver by lia. }
    destruct (probe env p) as [e|e|ts] eqn:Hp.
    + cbn [ret fst snd].
      edestruct (IH bs best) as (best' & w' & -> & Hn & Hc & Hb' & Ho & Hnone); [| |done|].
      3:{ exists best', w'. cbn in *. repeat split; try done; try lia; try (by apply Hnone).
          intros p0 [->|Hin]%elem_of_cons; [by rewrite Hp|]. by apply Hnone. }
      * intros c Hc. cbn in *. apply Hwf in Hc. lia.
      * done.
    + cbn [ret fst snd].
      edestruct (IH bs best) as (best' & w' & -> & Hn & Hc & Hb' & Ho & Hnone); [| |done|].
      3:{ exists best', w'. cbn in *. repeat split; try done; try lia; try (by apply Hnone).
          - rewrite Ho. set_solver.
          - intros p0 [->|Hin]%elem_of_cons; [by rewrite Hp|]. by apply Hnone. }
      * intros c. cbn. rewrite elem_of_union, elem_of_singleton. intros [->|Hc]; [lia|].
        apply Hwf in Hc. lia.
      * intros b Hb. cbn. apply Hbest in Hb. set_solver.
    + cbn [fst snd].
      destruct (bs <? score query (map convertTool ts))%Z eqn:Hlt.
      * unfold bind at 1.
        set (w1 := mkWorld (S (next_client w))
                     (({[next_client w]} ∪ open_conns w) ∖ clientOpt best)
                     (spawns w ++ [(commandFor env p, p)]) (calls w)).
        assert (Hclose : (match best with Some b => close (client b) | None => ret tt end)
                  (mkWorld (S (next_client w)) ({[next_client w]} ∪ open_conns w)
                     (spawns w ++ [(commandFor env p, p)]) (calls w)) = (Normal tt, w1)).
        { unfold w1. destruct best as [b|]; unfold close, ret; simpl; f_equal.
          apply world_eq; try done. set_solver. }
        rewrite Hclose. cbn [ret fst snd].
        edestruct (IH (score query (map convertTool ts))
                     (Some (mkInfo p (map convertTool ts) (next_client w))) w1)
          as (best' & w' & -> & Hn & Hc & Hb' & Ho & Hnone).
        4:{ exists best', w'. subst w1. cbn in *.
            repeat split; try done; try lia; try (by destruct (Hnone ltac:(done))).
            rewrite Ho. set_solver. }
        -- intros c. subst w1. cbn. rewrite elem_of_difference, elem_of_union, elem_of_singleton.
           intros [[->|Hc] _]; [lia|]. apply Hwf in Hc. lia.
        -- intros b [= <-]. subst w1. cbn. set_solver.
        -- discriminate.
      * unfold bind at 1, close. cbn [ret fst snd next_client open_conns spawns calls].
        edestruct (IH bs best) as (best' & w' & -> & Hn & Hc & Hb' & Ho & Hnone); [| |done|].
        3:{ exists best', w'. cbn in *.
            assert (best' = None -> False).
            { intros H. destruct (Hnone H) as [-> _]. specialize (Hbs eq_refl).
              pose proof (score_nonneg query (map convertTool ts)).
              apply Z.ltb_ge in Hlt. lia. }
            repeat split; try done; try lia.
            rewrite Ho. set_solver. }
        -- intros c. cbn. rewrite elem_of_difference, elem_of_union, elem_of_singleton.
           intros [[->|Hc] Hne]; [done|]. apply Hwf in Hc. lia.
        -- intros b Hb. cbn. apply Hbest in Hb.
           rewrite elem_of_difference, elem_of_union, elem_of_singleton.
           split; [by right|]. intros E. apply Hwf in Hb. lia.
Qed.

Lemma score_select_success cands query w b w' :
  wfWorld w ->
  selectServerScript_by_score env cands query w = (Normal b, w') ->
  open_conns w' = open_conns w ∪ halfOpen env cands (next_client w) ∪ {[client b]}.
Proof.
  intros Hwf. unfold selectServerScript_by_score, bind.
  destruct (scoreCandidates_spec query cands (-1)%Z None w Hwf)
    as (best' & w1 & -> & _ & _ & Hb & Ho & _); [done|lia|].
  destruct best' as [b'|]; [|discriminate]. unfold ret. intros [= <- <-].
  specialize (Hb b' eq_refl). simpl in Ho.
  apply set_eq. intros c. destruct (decide (c = client b')) as [->|Hne]; [set_solver|].
  assert (c ∈ open_conns w1 ∖ {[client b']} <-> c ∈ open_conns w1) as <- by set_solver.
  rewrite Ho. set_solver.
Qed.
End ScoreFacts.

(** ** Invocation and the session controller *)

Section InvokerFacts.
Variable env : Env.

Lemma callTool_conns c nm args w :
  open_conns (snd (callTool env c nm args w)) = open_conns w.
Proof.
  unfold callTool. destruct (decide _); [|done].
  by destruct (callTool_outcome env c nm args).
Qed.

Lemma processBlocks_text_only mcp blocks : forall messages finalText w,
  forallb isTextBlock blocks = true ->
  processBlocks env mcp blocks messages finalText w
  = (Normal (finalText ++ blockTexts blocks), w).
Proof.
  induction blocks as [|b rest IH]; intros messages finalText w H; simpl.
  - by rewrite app_nil_r.
  - destruct b; simpl in H; try discriminate.
    rewrite IH by done. unfold blockTexts. simpl. by rewrite <- app_assoc.
Qed.

Lemma processBlocks_conns mcp blocks : forall messages finalText w,
  open_conns (snd (processBlocks env mcp blocks messages finalText w)) = open_conns w.
Proof.
  induction blocks as [|b rest IH]; intros messages finalText w; cbn [processBlocks]; [done|].
  destruct b as [t|nm args|]; try apply IH.
  unfold bind at 1.
  pose proof (callTool_conns mcp nm args w) as Ho.
  destruct (callTool env mcp nm args w) as [[r|e] w1]; cbn [fst snd] in *; [|done].
  unfold bind at 1, await.
  destruct (messages_create env 1000 _ None) as [e|response]; [done|].
  unfold ret at 1. unfold bind at 1.
  destruct response as [|[t| |] ?]; unfold throw, ret; cbn [fst snd]; try done;
    rewrite <- Ho; apply IH.
Qed.

Lemma processQuery_native_conns mcp ts query w :
  open_conns (snd (processQuery_native env mcp ts query w)) = open_conns w.
Proof.
  unfold processQuery_native, bind, await.
  destruct (messages_create env 1000 _ (Some ts)) as [e|response]; [done|].
  unfold ret at 1.
  pose proof (processBlocks_conns mcp response [userMessage (JStr query)] [] w) as Ho.
  by destruct (processBlocks env mcp response _ [] w) as [[r|e] w1].
Qed.

Lemma processQuery_prompted_conns mcp ts query w :
  open_conns (snd (processQuery_prompted env mcp ts query w)) = open_conns w.
Proof.
  unfold processQuery_prompted, bind, await.
  destruct (generateContent env _ (invocationPrompt query ts)) as [e|result]; [done|].
  unfold ret at 1.
  destruct (String_match _ _) as [[g1 g2]|]; [|done].
  destruct (JSON_parse g2) as [args|]; [|done].
  pose proof (callTool_conns mcp (trim g1) args w) as Ho.
  destruct (callTool env mcp (trim g1) args w) as [[r|e] w1]; cbn [fst snd] in *; [|done].
  destruct (normalizeContent r); unfold throw, ret; cbn [fst snd]; [done|].
  by destruct (generateContent env _ _).
Qed.

(** The session controller, for any selector and any invoker. *)
Section Turn.
Variable select : jsstring -> M Selection.
Variable processQuery : ClientId -> list Tool -> jsstring -> M jsstring.

Lemma mainTurn_selection_failed query confirm w e w1 :
  select query w = (Throw e, w1) ->
  mainTurn select processQuery query confirm w = (Normal tt, w1).
Proof.
  intros H. unfold mainTurn, bind, try_catch. unfold bind. by rewrite H.
Qed.

Lemma mainTurn_declined query confirm w sel w1 :
  select query w = (Normal sel, w1) ->
  affirmative confirm = false ->
  mainTurn select processQuery query confirm w = (Normal tt, w1).
Proof.
  intros H Hc. unfold mainTurn, bind, try_catch. unfold bind. rewrite H. simpl.
  unfold affirmative in Hc. by rewrite Hc.
Qed.

Lemma mainTurn_confirmed query confirm w sel w1 :
  select query w = (Normal sel, w1) ->
  affirmative confirm = true ->
  (forall mcp ts q w0, open_conns (snd (processQuery mcp ts q w0)) = open_conns w0) ->
  open_conns (snd (mainTurn select processQuery query confirm w))
  = open_conns w1 ∖ {[client (selectedServer sel)]}.
Proof.
  intros H Hc Hp. unfold mainTurn, bind, try_catch. unfold bind. rewrite H. simpl.
  unfold affirmative in Hc. rewrite Hc. simpl.
  unfold try_finally, bind.
  specialize (Hp (client (selectedServer sel)) [selectedTool sel] query w1).
  destruct (processQuery _ _ query w1) as [[r|e] w2]; simpl in *;
    unfold cleanup, bind, close, transport_close, close; simpl; rewrite Hp; set_solver.
Qed.
End Turn.
End InvokerFacts.

(** ** The pattern matcher *)

Lemma starLoop_sound g cls k s r :
  starLoop g cls k s = Some r ->
  exists xs s', s = xs ++ s' /\ forallb (classMatches cls) xs = true /\ k s' = Some r.
Proof.
  induction s as [|c s IH]; simpl.
  - intros H. by exists [], [].
  - destruct (classMatches cls c) eqn:Hc.
    + assert (Hrec : starLoop g cls k s = Some r ->
        exists xs s', c :: s = xs ++ s' /\ forallb (classMatches cls) xs = true /\ k s' = Some r).
      { intros (xs & s' & -> & Hxs & Hk)%IH. exists (c :: xs), s'. simpl. by rewrite Hc, Hxs. }
      assert (Hstop : k (c :: s) = Some r ->
        exists xs s', c :: s = xs ++ s' /\ forallb (classMatches cls) xs = true /\ k s' = Some r).
      { intros Hk. by exists [], (c :: s). }
      destruct g.
      * destruct (starLoop true cls k s) eqn:E; [intros [= ->]; by apply Hrec|apply Hstop].
      * destruct (k (c :: s)) eqn:E; [intros [= ->]; by apply Hstop|apply Hrec].
    + intros Hk. by exists [], (c :: s).
Qed.

Lemma starLoop_stop g cls k s : is_Some (k s) -> is_Some (starLoop g cls k s).
Proof.
  intros Hk. destruct s as [|c s]; simpl; [done|].
  destruct (classMatches cls c); [|done].
  destruct g.
  - by destruct (starLoop true cls k s).
  - destruct (k (c :: s)); [done|]. by destruct Hk.
Qed.

Lemma starLoop_complete g cls k xs : forall s',
  forallb (classMatches cls) xs = true -> is_Some (k s') ->
  is_Some (starLoop g cls k (xs ++ s')).
Proof.
  induction xs as [|x xs IH]; intros s' Hxs Hk; simpl.
  - by apply starLoop_stop.
  - simpl in Hxs. apply andb_true_iff in Hxs as [Hx Hxs]. rewrite Hx.
    specialize (IH s' Hxs Hk). destruct g.
    + destruct (starLoop true cls k (xs ++ s')); [done|by destruct IH].
    + by destruct (k (x :: xs ++ s')).
Qed.

Lemma matchHere_sound re : forall s marks r,
  matchHere re s marks = Some r -> Derives re s marks r.
Proof.
  induction re as [|node re IH]; intros s marks r; simpl.
  - by intros [= ->].
  - destruct node as [cls|g cls| |].
    + destruct s as [|c s]; [done|]. destruct (classMatches cls c) eqn:Hc; [|done].
      intros H. exists c, s. auto.
    + intros (xs & s' & -> & Hxs & Hk)%starLoop_sound. exists xs, s'. auto.
    + apply IH.
    + apply IH.
Qed.

Lemma matchHere_complete re : forall s marks r,
  Derives re s marks r -> is_Some (matchHere re s marks).
Proof.
  induction re as [|node re IH]; intros s marks r; simpl.
  - done.
  - destruct node as [cls|g cls| |].
    + intros (c & s' & -> & Hc & H). rewrite Hc. by apply (IH _ _ r).
    + intros (xs & s' & -> & Hxs & H). apply starLoop_complete; [done|]. by apply (IH _ _ r).
    + apply IH.
    + apply IH.
Qed.

Lemma exec_sound re s r :
  exec re s = Some r -> exists pre s', s = pre ++ s' /\ Derives re s' [] r.
Proof.
  induction s as [|c s IH]; simpl.
  - destruct (matchHere re [] []) eqn:E; [|done]. intros [= ->].
    exists [], []. split; [done|]. by apply matchHere_sound.
  - destruct (matchHere re (c :: s) []) eqn:E.
    + intros [= ->]. exists [], (c :: s). split; [done|]. by apply matchHere_sound.
    + intros (pre & s' & -> & H)%IH. by exists (c :: pre), s'.
Qed.

Lemma exec_complete re pre : forall s' r,
  Derives re s' [] r -> is_Some (exec re (pre ++ s')).
Proof.
  induction pre as [|c pre IH]; intros s' r H; simpl.
  - apply matchHere_complete in H as [m Hm].
    destruct s'; simpl; by rewrite Hm.
  - destruct (matchHere re (c :: pre ++ s') []); [done|]. by apply (IH _ r).
Qed.

Lemma Derives_literal l re : forall s marks r,
  Derives (map (fun c => Char (Lit c)) l ++ re) s marks r
  <-> exists s', s = l ++ s' /\ Derives re s' marks r.
Proof.
  induction l as [|a l IH]; intros s marks r; simpl.
  - split; [by exists s|by intros (s' & -> & H)].
  - split.
    + intros (c & s' & -> & Hc & (s'' & -> & H)%IH). apply N.eqb_eq in Hc as ->. by exists s''.
    + intros (s' & -> & H). exists a, (l ++ s'). rewrite N.eqb_refl.
      repeat split; try done. apply IH. by exists s'.
Qed.

Lemma take_app_length_diff {A} (p x : list A) :
  take (length (p ++ x) - length x) (p ++ x) = p.
Proof.
  rewrite length_app. replace (length p + length x - length x) with (length p) by lia.
  by rewrite take_app_length.
Qed.

Lemma selection_Derives s r :
  Derives selection_pattern s [] r <->
  exists p ws n post,
    s = js "path=" ++ p ++ js "," ++ ws ++ js "name=" ++ n ++ post
    /\ noLineTerminator p /\ allSpace ws /\ noLineTerminator n
    /\ r = [post; n ++ post; js "," ++ ws ++ js "name=" ++ n ++ post;
            p ++ js "," ++ ws ++ js "name=" ++ n ++ post].
Proof.
  unfold selection_pattern, literal. rewrite Derives_literal. split.
  - intros (s1 & -> & H). cbn [app Derives] in H.
    destruct H as (p & s2 & -> & Hp & H). rewrite Derives_literal in H.
    destruct H as (s3 & -> & (ws & s4 & -> & Hws & H)). rewrite Derives_literal in H.
    destruct H as (s5 & -> & H). cbn [app Derives] in H.
    destruct H as (n & post & -> & Hn & ->).
    exists p, ws, n, post. done.
  - intros (p & ws & n & post & -> & Hp & Hws & Hn & ->).
    eexists. split; [done|]. cbn [app Derives].
    exists p, (js "," ++ ws ++ js "name=" ++ n ++ post). repeat split; try done.
    rewrite Derives_literal. eexists. split; [done|].
    exists ws, (js "name=" ++ n ++ post). repeat split; try done.
    rewrite Derives_literal. eexists. split; [done|]. cbn [app Derives].
    by exists n, post.
Qed.


(** ** JSON round trip *)

(** *** Numbers *)

Lemma to_uint_normal p : isNormal (Pos.to_uint p).
Proof.
  unfold isNormal. change (Pos.to_uint p) with (N.to_uint (Npos p)).
  rewrite <- DecimalN.Unsigned.to_of. by rewrite DecimalN.Unsigned.of_to.
Qed.

Lemma normal_head d : isNormal d ->
  d = D0 Nil \/ (d <> Nil /\ forall d', d <> D0 d').
Proof.
  unfold isNormal. intros H. destruct d; try (right; split; congruence).
  - by destruct (unorm_nonnil Nil).
  - left. rewrite unorm_D0 in H. unfold unorm in H.
    destruct (nzhead d) eqn:E; try (exfalso; apply (nzhead_nonzero d d); congruence).
    by injection H as <-.
Qed.

Lemma digitOf_units d : forall rest,
  numberEnds rest -> readDigits (uint_units d ++ rest) = (d, rest).
Proof.
  induction d; intros rest Hr; simpl; try (by rewrite IHd).
  destruct rest as [|c rest]; [done|]. simpl. destruct Hr as [-> _]. done.
Qed.

Lemma readInt_units d rest :
  isNormal d -> numberEnds rest -> readInt (uint_units d ++ rest) = Some (d, rest).
Proof.
  intros [->|[Hnil Hd]]%normal_head Hr; [done|].
  destruct d; try done; try (by destruct (Hd d));
    unfold readInt; cbn [uint_units app]; cbn [N.eqb Pos.eqb digitOf];
    by rewrite <- (digitOf_units _ rest Hr).
Qed.

Lemma parseNumber_int z rest :
  numberEnds rest -> parseNumber (int_to_string z ++ rest) = Some (z, rest).
Proof.
  intros Hr. unfold int_to_string.
  assert (Hfrac : startsFraction rest = false).
  { destruct rest; [done|]. by destruct Hr. }
  destruct z as [|p|p]; cbn [Z.to_int].
  - unfold parseNumber. simpl. by rewrite Hfrac.
  - pose proof (readInt_units (Pos.to_uint p) rest (to_uint_normal p) Hr) as Hi.
    unfold parseNumber.
    destruct (uint_units (Pos.to_uint p) ++ rest) as [|c tl] eqn:E; [done|].
    assert (N.eqb c 45 = false) as ->.
    { unfold readInt in Hi. destruct (N.eqb c 48) eqn:E48; [by apply N.eqb_eq in E48 as ->|].
      destruct (N.eqb c 45) eqn:E45; [|done]. apply N.eqb_eq in E45 as ->. done. }
    rewrite Hi, Hfrac. f_equal. f_equal.
    change (Z.of_int (Pos (Pos.to_uint p))) with (Z.of_int (Z.to_int (Zpos p))).
    apply DecimalZ.of_to.
  - pose proof (readInt_units (Pos.to_uint p) rest (to_uint_normal p) Hr) as Hi.
    unfold parseNumber. cbn [app N.eqb Pos.eqb].
    rewrite Hi, Hfrac. f_equal. f_equal.
    change (Z.of_int (Neg (Pos.to_uint p))) with (Z.of_int (Z.to_int (Zneg p))).
    apply DecimalZ.of_to.
Qed.

(** A number never starts with white space, a quote, a bracket, a brace
    or a letter. *)
Lemma int_to_string_head z :
  exists c tl, int_to_string z = c :: tl /\ (c = 45%N \/ is_Some (digitOf c)).
Proof.
  unfold int_to_string. destruct (Z.to_int z) as [d|d] eqn:E.
  - assert (isNormal d) as Hd.
    { destruct z; cbn [Z.to_int] in E; try discriminate; injection E as <-;
        [done|apply to_uint_normal]. }
    apply normal_head in Hd as [->|[Hnil _]]; [by exists 48%N, []; split; [|right]|].
    destruct d; try done; simpl; eexists _, _; (split; [done|right; done]).
  - eexists _, _. split; [done|by left].
Qed.

(** *** Strings *)

Lemma hexValue_hexDigit n : (n < 16)%N -> hexValue (hexDigit n) = Some n.
Proof.
  intros H. unfold hexDigit, hexValue.
  destruct (N.ltb_spec n 10).
  - destruct (N.leb_spec 48 (48 + n)); [|lia].
    destruct (N.leb_spec (48 + n) 57); [|lia]. simpl. f_equal. lia.
  - destruct (N.leb_spec 48 (87 + n)); [|lia].
    destruct (N.leb_spec (87 + n) 57); [lia|]. simpl.
    destruct (N.leb_spec 97 (87 + n)); [|lia].
    destruct (N.leb_spec (87 + n) 102); [|lia]. simpl. f_equal. lia.
Qed.

Lemma hex4_digits c :
  (c < 65536)%N ->
  hex4 (hexDigit (c / 4096 mod 16)) (hexDigit (c / 256 mod 16))
       (hexDigit (c / 16 mod 16)) (hexDigit (c mod 16)) = Some c.
Proof.
  intros H. unfold hex4.
  rewrite !hexValue_hexDigit by (apply N.mod_lt; lia).
  f_equal. 
  pose proof (N.div_mod c 16 ltac:(lia)).
  pose proof (N.div_mod (c / 16) 16 ltac:(lia)).
  pose proof (N.div_mod (c / 16 / 16) 16 ltac:(lia)).
  rewrite !N.Div0.div_div in *. change (16 * 16)%N with 256%N in *.
  change (256 * 16)%N with 4096%N in *.
  assert (c / 4096 < 16)%N by (apply N.Div0.div_lt_upper_bound; lia).
  rewrite (N.mod_small (c / 4096) 16) in * by done. lia.
Qed.

Lemma parse_unicodeEscape c rest :
  (c < 65536)%N ->
  parseStringBody (unicodeEscape c ++ rest) = consUnit c (parseStringBody rest).
Proof.
  intros H. unfold unicodeEscape. cbn [app parseStringBody N.eqb Pos.eqb].
  by rewrite hex4_digits.
Qed.

Lemma parse_plain c rest :
  N.eqb c 34 = false -> N.eqb c 92 = false -> N.ltb c 32 = false ->
  parseStringBody (c :: rest) = consUnit c (parseStringBody rest).
Proof. intros H1 H2 H3. cbn [parseStringBody]. by rewrite H1, H2, H3. Qed.

Lemma parse_escapeUnit c rest :
  parseStringBody (escapeUnit c ++ rest) = consUnit c (parseStringBody rest).
Proof.
  unfold escapeUnit.
  destruct (N.eqb_spec c 8) as [->|?]; [done|].
  destruct (N.eqb_spec c 9) as [->|?]; [done|].
  destruct (N.eqb_spec c 10) as [->|?]; [done|].
  destruct (N.eqb_spec c 12) as [->|?]; [done|].
  destruct (N.eqb_spec c 13) as [->|?]; [done|].
  destruct (N.eqb_spec c 34) as [->|?]; [done|].
  destruct (N.eqb_spec c 92) as [->|?]; [done|].
  destruct (N.ltb_spec c 32); cbn [orb].
  - apply parse_unicodeEscape. lia.
  - unfold isHighSurrogate, isLowSurrogate.
    destruct (N.leb_spec 55296 c); destruct (N.leb_spec c 56319); cbn [andb orb];
      try (apply parse_unicodeEscape; lia);
      destruct (N.leb_spec 56320 c); destruct (N.leb_spec c 57343); cbn [andb orb];
      try (apply parse_unicodeEscape; lia);
      (apply parse_plain; [by apply N.eqb_neq|by apply N.eqb_neq|by apply N.ltb_ge]).
Qed.

Lemma parse_surrogate c rest :
  (55296 <= c)%N -> parseStringBody (c :: rest) = consUnit c (parseStringBody rest).
Proof.
  intros H. apply parse_plain; [apply N.eqb_neq|apply N.eqb_neq|apply N.ltb_ge]; lia.
Qed.

Lemma parse_quoteUnits_n n : forall s rest,
  length s <= n ->
  parseStringBody (quoteUnits s ++ 34%N :: rest) = Some (s, rest).
Proof.
  induction n as [|n IH]; intros s rest Hlen.
  - destruct s; [done|simpl in Hlen; lia].
  - destruct s as [|c s]; [done|]. cbn [quoteUnits].
    destruct (isHighSurrogate c) eqn:Hc.
    + destruct s as [|d s].
      * rewrite parse_escapeUnit. done.
      * destruct (isLowSurrogate d) eqn:Hd.
        -- unfold isHighSurrogate, isLowSurrogate in *.
           apply andb_true_iff in Hc as [Hc%N.leb_le _].
           apply andb_true_iff in Hd as [Hd%N.leb_le _].
           cbn [app]. rewrite parse_surrogate by lia. rewrite parse_surrogate by lia.
           rewrite IH by (simpl in *; lia). done.
        -- rewrite <- app_assoc, parse_escapeUnit, IH by (simpl in *; lia). done.
    + rewrite <- app_assoc, parse_escapeUnit, IH by (simpl in *; lia). done.
Qed.

Lemma parse_quoted s rest :
  parseStringBody (quoteUnits s ++ 34%N :: rest) = Some (s, rest).
Proof. by apply (parse_quoteUnits_n (length s)). Qed.

(** *** Values *)

Lemma skipWS_app ws s : allWS ws -> skipWS (ws ++ s) = skipWS s.
Proof.
  unfold allWS. induction ws as [|c ws IH]; simpl; [done|].
  intros [-> H]%andb_true_iff. by apply IH.
Qed.

Lemma skipWS_token c s : isJSONWhiteSpace c = false -> skipWS (c :: s) = c :: s.
Proof. intros H. simpl. by rewrite H. Qed.

Lemma allWS_app a b : allWS a -> allWS b -> allWS (a ++ b).
Proof. unfold allWS. rewrite forallb_app. by intros -> ->. Qed.

Lemma valueStart_decide c :
  isJSONWhiteSpace c = false -> N.eqb c 93 = false -> N.eqb c 125 = false -> valueStart c.
Proof. intros ? ?%N.eqb_neq ?%N.eqb_neq. done. Qed.

Lemma serialize_head gap indent v :
  exists c tl, serializeJSON gap indent v = c :: tl /\ valueStart c.
Proof.
  destruct v as [|[]|z|s|items|props]; cbn [serializeJSON];
    try (eexists _, _; split; [reflexivity|by apply valueStart_decide]).
  - destruct (int_to_string_head z) as (c & tl & -> & Hc). exists c, tl. split; [done|].
    destruct Hc as [->|[d Hd]]; [by apply valueStart_decide|]. unfold digitOf in Hd.
    repeat match type of Hd with
           | (if N.eqb c ?k then _ else _) = _ =>
               destruct (N.eqb_spec c k) as [->|?]; [by apply valueStart_decide|]
           end.
    done.
  - unfold wrapPartial. destruct (map _ items);
      [eexists _, _; split; [reflexivity|by apply valueStart_decide]|].
    destruct (isEmptyString gap); eexists _, _;
      (split; [reflexivity|by apply valueStart_decide]).
  - unfold wrapPartial. destruct (map _ props);
      [eexists _, _; split; [reflexivity|by apply valueStart_decide]|].
    destruct (isEmptyString gap); eexists _, _;
      (split; [reflexivity|by apply valueStart_decide]).
Qed.

Lemma wrapPartial_cons opening closing gap indent stepback p partial :
  wrapPartial opening closing gap indent stepback (p :: partial)
  = opening :: leadOf gap indent
      ++ join (44%N :: leadOf gap indent) (p :: partial)
      ++ leadOf gap stepback ++ [closing].
Proof.
  unfold wrapPartial, leadOf. destruct (isEmptyString gap); [done|].
  cbn [app]. by rewrite <- ?app_assoc.
Qed.

Lemma allWS_lead gap indent : allWS gap -> allWS indent -> allWS (leadOf gap indent).
Proof. intros Hg Hi. unfold leadOf. destruct (isEmptyString gap); [done|]. done. Qed.

Lemma numberEnds_token c s :
  digitOf c = None -> startsFraction (c :: s) = false -> numberEnds (c :: s).
Proof. done. Qed.

Lemma numberEnds_ws_then ws c s :
  allWS ws -> digitOf c = None -> startsFraction (c :: s) = false ->
  numberEnds (ws ++ c :: s).
Proof.
  intros Hws Hc Hf. destruct ws as [|x ws]; [done|]. simpl.
  unfold allWS in Hws. simpl in Hws. apply andb_true_iff in Hws as [Hx _].
  unfold isJSONWhiteSpace in Hx.
  repeat (apply orb_true_iff in Hx as [Hx|Hx]); apply N.eqb_eq in Hx as ->; done.
Qed.

Lemma join_cons_cons sep p q l : join sep (p :: q :: l) = p ++ sep ++ join sep (q :: l).
Proof. done. Qed.

Lemma not_close_bracket {T} (c : N) (a b : T) :
  c <> 93%N -> match c with 93%N => a | _ => b end = b.
Proof.
  intros H. destruct c as [|p]; [done|].
  repeat (destruct p as [p|p|]; try done).
Qed.


Section RoundTrip.
Variable gap : jsstring.
Hypothesis gap_ws : allWS gap.

Lemma parseValue_token fuel ws c tl :
  allWS ws -> isJSONWhiteSpace c = false ->
  parseValue (S fuel) (ws ++ c :: tl) = parseValue (S fuel) (c :: tl).
Proof.
  intros Hws Hc. cbn [parseValue]. by rewrite skipWS_app, !skipWS_token.
Qed.

Lemma parseElements_items items :
  Forall (ParsesBack gap) items -> items <> [] ->
  forall indent lead trail rest fuel,
    allWS indent -> allWS lead -> allWS trail ->
    fold_right (fun x acc => Canonical x /\ acc) True items ->
    fold_right (fun x acc => S (need x) + acc) 0 items <= fuel ->
    parseElements fuel
      (lead ++ join (44%N :: lead) (map (serializeJSON gap indent) items)
         ++ trail ++ 93%N :: rest)
    = Some (items, rest).
Proof.
  induction 1 as [|v items Hv Hitems IH]; [done|]. intros _ indent lead trail rest fuel
    Hind Hlead Htrail [Hcv Hcl] Hfuel.
  cbn [fold_right] in Hfuel. destruct fuel as [|fuel]; [lia|].
  cbn [parseElements]. destruct items as [|v2 items'].
  - cbn [map join].
    rewrite (Hv indent lead (trail ++ 93%N :: rest) fuel); try done.
    + cbn [mbind option_bind]. by rewrite skipWS_app, skipWS_token.
    + by apply numberEnds_ws_then.
    + simpl in Hfuel. lia.
  - cbn [map]. rewrite join_cons_cons. rewrite <- !app_assoc. cbn [app].
    rewrite (Hv indent lead (44%N :: _) fuel); try done; [|lia].
    cbn [mbind option_bind]. rewrite skipWS_token by done.
    pose proof (IH ltac:(done) indent lead trail rest fuel Hind Hlead Htrail Hcl ltac:(lia)) as Hrec.
    cbn [map] in Hrec. by rewrite Hrec.
Qed.

Lemma parseMembers_props props :
  Forall (fun kv => ParsesBack gap (snd kv)) props -> props <> [] ->
  forall indent lead trail rest fuel,
    allWS indent -> allWS lead -> allWS trail ->
    fold_right (fun kv acc => (let '(_, x) := kv in Canonical x) /\ acc) True props ->
    fold_right (fun kv acc => S (let '(_, x) := kv in need x) + acc) 0 props <= fuel ->
    parseMembers fuel
      (lead ++ join (44%N :: lead) (map (memberText gap indent) props)
         ++ trail ++ 125%N :: rest)
    = Some (props, rest).
Proof.
  induction 1 as [|[k v] props Hv Hprops IH]; [done|]. intros _ indent lead trail rest fuel
    Hind Hlead Htrail [Hcv Hcl] Hfuel.
  cbn [fold_right] in Hfuel. destruct fuel as [|fuel]; [lia|].
  assert (Hsp : allWS (if isEmptyString gap then [] else [32%N])) by (by destruct (isEmptyString gap)).
  cbn [parseMembers snd] in *. destruct props as [|kv2 props'].
  - cbn [map join memberText]. unfold quoteJSONString.
    rewrite skipWS_app by done. cbn [app]. rewrite skipWS_token by done.
    rewrite <- !app_assoc. cbn [app]. rewrite parse_quoted. cbn [mbind option_bind].
    rewrite skipWS_token by done. rewrite <- !app_assoc.
    rewrite (Hv indent _ (trail ++ 125%N :: rest) fuel); try done.
    + cbn [mbind option_bind]. by rewrite skipWS_app, skipWS_token.
    + by apply numberEnds_ws_then.
    + simpl in Hfuel. lia.
  - cbn [map]. rewrite join_cons_cons. cbn [memberText]. unfold quoteJSONString.
    rewrite skipWS_app by done. cbn [app]. rewrite skipWS_token by done.
    rewrite <- !app_assoc. cbn [app]. rewrite <- !app_assoc. rewrite parse_quoted.
    cbn [mbind option_bind]. rewrite skipWS_token by done. rewrite <- ?app_assoc. cbn [app].
    rewrite (Hv indent _ (44%N :: _) fuel); try done; [|lia].
    cbn [mbind option_bind]. rewrite skipWS_token by done.
    pose proof (IH ltac:(done) indent lead trail rest fuel Hind Hlead Htrail Hcl ltac:(lia)) as Hrec.
    cbn [map] in Hrec. by rewrite Hrec.
Qed.

Lemma serialize_parses_back v : ParsesBack gap v.
Proof.
  induction v as [|b|z|s|items IH|props IH] using JValue_nested_ind;
    intros indent ws rest fuel Hind Hws Hcan Hrest Hfuel;
    (destruct fuel as [|fuel]; [simpl in Hfuel; lia|]).
  - cbn [serializeJSON]. change (js "null") with (110%N :: js "ull"). cbn [app].
    rewrite parseValue_token by done. cbn [parseValue]. rewrite skipWS_token by done.
    done.
  - destruct b; cbn [serializeJSON].
    + change (js "true") with (116%N :: js "rue"). cbn [app].
      rewrite parseValue_token by done. cbn [parseValue]. rewrite skipWS_token by done. done.
    + change (js "false") with (102%N :: js "alse"). cbn [app].
      rewrite parseValue_token by done. cbn [parseValue]. rewrite skipWS_token by done. done.
  - cbn [serializeJSON].
    destruct (int_to_string_head z) as (c & tl & E & Hc).
    pose proof (parseNumber_int z rest Hrest) as Hnum. rewrite E in *. cbn [app] in *.
    assert (Hc' : isJSONWhiteSpace c = false /\ N.eqb c 110 = false /\ N.eqb c 116 = false
                  /\ N.eqb c 102 = false /\ N.eqb c 34 = false /\ N.eqb c 91 = false
                  /\ N.eqb c 123 = false).
    { destruct Hc as [->|[d Hd]]; [done|]. unfold digitOf in Hd.
      repeat match type of Hd with
             | (if N.eqb c ?k then _ else _) = _ =>
                 destruct (N.eqb_spec c k) as [->|?]; [done|]
             end.
      done. }
    destruct Hc' as (H0 & H1 & H2 & H3 & H4 & H5 & H6).
    rewrite parseValue_token by done. cbn [parseValue]. rewrite skipWS_token by done.
    rewrite H1, H2, H3, H4, H5, H6, Hnum. done.
  - cbn [serializeJSON]. unfold quoteJSONString. cbn [app].
    rewrite parseValue_token by done. cbn [parseValue]. rewrite skipWS_token by done.
    cbn [N.eqb Pos.eqb]. rewrite <- app_assoc. cbn [app]. rewrite parse_quoted. done.
  - cbn [serializeJSON]. destruct items as [|v items].
    + cbn [map wrapPartial app]. rewrite parseValue_token by done. cbn [parseValue].
      rewrite skipWS_token by done. cbn [N.eqb Pos.eqb]. by rewrite skipWS_token.
    + cbn [map]. rewrite wrapPartial_cons. cbn [app].
      rewrite parseValue_token by done. cbn [parseValue]. rewrite skipWS_token by done.
      cbn [N.eqb Pos.eqb].
      assert (Hlead : allWS (leadOf gap (indent ++ gap))).
      { apply allWS_lead; [done|by apply allWS_app]. }
      assert (Htrail : allWS (leadOf gap indent)) by (by apply allWS_lead).
      rewrite <- !app_assoc. cbn [app].
      change (serializeJSON gap (indent ++ gap) v :: map (serializeJSON gap (indent ++ gap)) items)
        with (map (serializeJSON gap (indent ++ gap)) (v :: items)).
      cbn [need] in Hfuel. cbn [Canonical] in Hcan.
      rewrite (parseElements_items (v :: items) IH ltac:(done) (indent ++ gap)
                 (leadOf gap (indent ++ gap)) (leadOf gap indent) rest fuel);
        try done; [|by apply allWS_app|lia].
      destruct (serialize_head gap (indent ++ gap) v) as (c & tl & E & Hc & Hc93 & _).
      assert (Hsk : exists tl', skipWS (leadOf gap (indent ++ gap)
                 ++ join (44%N :: leadOf gap (indent ++ gap))
                      (map (serializeJSON gap (indent ++ gap)) (v :: items))
                 ++ leadOf gap indent ++ 93%N :: rest) = c :: tl').
      { rewrite skipWS_app by done. destruct items; cbn [map].
        - cbn [join]. rewrite E. cbn [app]. rewrite skipWS_token by done. eauto.
        - rewrite join_cons_cons, E. cbn [app]. rewrite skipWS_token by done. eauto. }
      destruct Hsk as [tl' ->]. by rewrite not_close_bracket.
  - cbn [serializeJSON]. destruct props as [|[k v] props].
    + cbn [map wrapPartial app]. rewrite parseValue_token by done. cbn [parseValue].
      rewrite skipWS_token by done. cbn [N.eqb Pos.eqb]. by rewrite skipWS_token.
    + cbn [map]. rewrite wrapPartial_cons. cbn [app].
      rewrite parseValue_token by done. cbn [parseValue]. rewrite skipWS_token by done.
      cbn [N.eqb Pos.eqb].
      assert (Hlead : allWS (leadOf gap (indent ++ gap))).
      { apply allWS_lead; [done|by apply allWS_app]. }
      assert (Htrail : allWS (leadOf gap indent)) by (by apply allWS_lead).
      rewrite <- !app_assoc. cbn [app].
      cbn [need] in Hfuel. cbn [Canonical] in Hcan. destruct Hcan as [Hobj Hcan].
      pose proof (parseMembers_props ((k, v) :: props) IH ltac:(done) (indent ++ gap)
                 (leadOf gap (indent ++ gap)) (leadOf gap indent) rest fuel
                 ltac:(by apply allWS_app) Hlead Htrail Hcan ltac:(lia)) as Hm.
      assert (Hsk : exists tl', skipWS (leadOf gap (indent ++ gap)
                 ++ join (44%N :: leadOf gap (indent ++ gap))
                      (map (memberText gap (indent ++ gap)) ((k, v) :: props))
                 ++ leadOf gap indent ++ 125%N :: rest) = 34%N :: tl').
      { rewrite skipWS_app by done. destruct props; cbn [map].
        - cbn [join memberText]. unfold quoteJSONString. cbn [app].
          rewrite skipWS_token by done. eauto.
        - rewrite join_cons_cons. cbn [memberText]. unfold quoteJSONString. cbn [app].
          rewrite skipWS_token by done. eauto. }
      destruct Hsk as [tl' Hsk].
      change (map (fun '(k0, x) => quoteJSONString k0 ++ 58%N
                :: (if isEmptyString gap then [] else [32%N])
                   ++ serializeJSON gap (indent ++ gap) x) props)
        with (map (memberText gap (indent ++ gap)) props).
      change (quoteJSONString k ++ 58%N :: (if isEmptyString gap then [] else [32%N])
                ++ serializeJSON gap (indent ++ gap) v)
        with (memberText gap (indent ++ gap) (k, v)).
      change (memberText gap (indent ++ gap) (k, v) :: map (memberText gap (indent ++ gap)) props)
        with (map (memberText gap (indent ++ gap)) ((k, v) :: props)).
      rewrite Hsk, Hm. cbn [mbind option_bind]. by rewrite Hobj.
Qed.
End RoundTrip.

Lemma join_length sep p ps :
  1 <= length sep ->
  fold_right (fun x acc => S (length x) + acc) 0 (p :: ps) <= S (length (join sep (p :: ps))).
Proof.
  intros Hsep. revert p. induction ps as [|q ps IH]; intros p.
  - simpl. lia.
  - rewrite join_cons_cons. cbn [fold_right]. rewrite !length_app.
    specialize (IH q). cbn [fold_right] in IH. lia.
Qed.

Lemma need_le_length gap v : forall indent,
  need v <= length (serializeJSON gap indent v).
Proof.
  induction v as [|b|z|s|items IH|props IH] using JValue_nested_ind; intros indent;
    cbn [need serializeJSON].
  - vm_compute. lia.
  - destruct b; vm_compute; lia.
  - destruct (int_to_string_head z) as (c & tl & -> & _). simpl. lia.
  - unfold quoteJSONString. simpl. lia.
  - destruct items as [|v items]; [simpl; lia|].
    cbn [map]. rewrite wrapPartial_cons. cbn [length]. rewrite !length_app.
    pose proof (join_length (44%N :: leadOf gap (indent ++ gap))
                  (serializeJSON gap (indent ++ gap) v)
                  (map (serializeJSON gap (indent ++ gap)) items) ltac:(simpl; lia)) as Hj.
    assert (Hsum : fold_right (fun x acc => S (need x) + acc) 0 (v :: items)
              <= fold_right (fun x acc => S (length x) + acc) 0
                   (map (serializeJSON gap (indent ++ gap)) (v :: items))).
    { clear Hj. induction IH as [|x l Hx Hl IHl]; [done|]. cbn [map fold_right].
      specialize (Hx (indent ++ gap)). lia. }
    cbn [map] in Hsum. change (length [93%N]) with 1. lia.
  - destruct props as [|[k v] props]; [simpl; lia|].
    cbn [map]. rewrite wrapPartial_cons. cbn [length]. rewrite !length_app.
    set (mt := fun '(k0, x) => quoteJSONString k0 ++ 58%N
                 :: (if isEmptyString gap then [] else [32%N])
                    ++ serializeJSON gap (indent ++ gap) x).
    pose proof (join_length (44%N :: leadOf gap (indent ++ gap))
                  (mt (k, v)) (map mt props) ltac:(simpl; lia)) as Hj.
    assert (Hsum : fold_right (fun kv acc => S (let '(_, x) := kv in need x) + acc) 0
                     ((k, v) :: props)
              <= fold_right (fun x acc => S (length x) + acc) 0 (map mt ((k, v) :: props))).
    { clear Hj. induction IH as [|[k0 x] l Hx Hl IHl]; [done|]. cbn [map fold_right].
      specialize (Hx (indent ++ gap)). cbn [snd] in Hx. unfold mt at 1.
      rewrite length_app. cbn [length]. rewrite length_app. lia. }
    cbn [map] in Hsum. change (mt (k, v)) with (quoteJSONString k ++ 58%N
                 :: (if isEmptyString gap then [] else [32%N])
                    ++ serializeJSON gap (indent ++ gap) v) in *.
    change (length [125%N]) with 1. lia.
Qed.

Lemma allWS_replicate n : allWS (replicate n 32%N).
Proof. unfold allWS. induction n; simpl; done. Qed.

Lemma JSON_parse_stringify v space :
  Canonical v -> JSON_parse (JSON_stringify v space) = Some v.
Proof.
  intros Hcan. unfold JSON_parse, JSON_stringify.
  set (gap := replicate (Nat.min 10 space) 32%N).
  pose proof (serialize_parses_back gap (allWS_replicate _) v [] [] []
                (S (length (serializeJSON gap [] v))) eq_refl eq_refl Hcan I) as H.
  rewrite app_nil_r in H. cbn [app] in H. rewrite H; [done|].
  pose proof (need_le_length gap v []). lia.
Qed.

(** ** What the two patterns accept *)

Lemma selection_match_Some text g1 g2 :
  String_match selection_pattern text = Some (g1, g2) ->
  exists pre ws post,
    text = pre ++ js "path=" ++ g1 ++ js "," ++ ws ++ js "name=" ++ g2 ++ post
    /\ noLineTerminator g1 /\ allSpace ws /\ noLineTerminator g2.
Proof.
  unfold String_match. destruct (exec selection_pattern text) as [marks|] eqn:E; [|done].
  apply exec_sound in E as (pre & s' & -> & H).
  apply selection_Derives in H as (p & ws & n & post & -> & Hp & Hws & Hn & ->).
  cbn [captures app]. rewrite (take_app_length_diff n post).
  rewrite (take_app_length_diff p). intros [= <- <-]. by exists pre, ws, post.
Qed.

Lemma selection_match_None text :
  String_match selection_pattern text = None <-> ~ SelectionFormat text.
Proof.
  split.
  - intros Hnone (pre & p & ws & post & -> & Hp & Hws).
    destruct (exec_complete selection_pattern pre
                (js "path=" ++ p ++ js "," ++ ws ++ js "name=" ++ [] ++ post)
                [post; [] ++ post; js "," ++ ws ++ js "name=" ++ [] ++ post;
                 p ++ js "," ++ ws ++ js "name=" ++ [] ++ post]) as [marks Hm].
    { apply selection_Derives. by exists p, ws, [], post. }
    unfold String_match in Hnone. cbn [app] in Hm. rewrite Hm in Hnone.
    apply exec_sound in Hm as (pre' & s' & _ & H).
    apply selection_Derives in H as (p' & ws' & n' & post' & _ & _ & _ & _ & ->).
    cbn [captures app] in Hnone. done.
  - intros Hno. destruct (String_match selection_pattern text) as [[g1 g2]|] eqn:E; [|done].
    exfalso. apply Hno. apply selection_match_Some in E as (pre & ws & post & -> & Hp & Hws & _).
    by exists pre, g1, ws, (g2 ++ post).
Qed.



Lemma selection_match_format text g1 g2 :
  String_match selection_pattern text = Some (g1, g2) -> SelectionFormat text.
Proof.
  intros (pre & ws & post & -> & Hp & Hws & _)%selection_match_Some.
  by exists pre, g1, ws, (g2 ++ post).
Qed.



(** ** Normalisation *)

Lemma isTextItem_textOf item :
  item <> JNull ->
  match textOf item with
  | Some x => isTextItem item = inr true /\ itemText item = x
  | None => isTextItem item = inr false
  end.
Proof.
  intros Hitem. destruct item as [| | | | |props]; try done. cbn [isTextItem textOf itemText].
  destruct (getProp (js "type") props) as [[| | |t| |]|]; try done.
  destruct (getProp (js "text") props) as [[| | |x| |]|];
    destruct (str_eqb t (js "text")); done.
Qed.

Lemma filterTextItems_spec items :
  (forall item, item ∈ items -> item <> JNull) ->
  exists kept, filterTextItems items = inr kept /\ map itemText kept = omap textOf items.
Proof.
  induction items as [|item items IH]; intros Hnn; [by exists []|].
  destruct IH as (kept & Hk & Hm). { intros i Hi. apply Hnn. by right. }
  cbn [filterTextItems omap list_omap]. rewrite Hk.
  pose proof (isTextItem_textOf item ltac:(apply Hnn; by left)) as Hi.
  destruct (textOf item) as [x|].
  - destruct Hi as [-> Hx]. exists (item :: kept). split; [done|]. cbn [map]. by rewrite Hx, Hm.
  - rewrite Hi. eauto.
Qed.

Lemma normalize_array items :
  (forall item, item ∈ items -> item <> JNull) ->
  normalizeContent (JArr items)
  = inr (let texts := join [10%N; 10%N] (omap textOf items) in
         if isEmptyString texts then JSON_stringify (JArr items) 2 else texts).
Proof.
  intros (kept & Hk & Hm)%filterTextItems_spec. cbn [normalizeContent].
  by rewrite Hk, Hm.
Qed.

Lemma stringify_nonempty v space : JSON_stringify v space <> [].
Proof.
  unfold JSON_stringify.
  destruct (serialize_head (replicate (Nat.min 10 space) 32%N) [] v) as (c & tl & -> & _).
  done.
Qed.

(** ** The pipeline, end to end *)









Lemma find_none_iff {A} (f : A -> bool) l :
  List.find f l = None <-> forall x, x ∈ l -> f x = false.
Proof.
  split.
  - intros H x Hx. apply list_elem_of_In in Hx. by apply (find_none f l H).
  - intros H. destruct (List.find f l) as [x|] eqn:E; [|done].
    apply find_some in E as [Hx Hf]. apply list_elem_of_In in Hx. rewrite (H x Hx) in Hf. done.
Qed.

(** C4. What the selector does with the model's (trimmed) response: a
    response without the [path=..., name=...] format throws the parse
    error, which carries the response; a parsed path that no discovered
    server has throws the unknown-server error; a parsed name that the first
    server with that path does not own throws the unknown-tool error;
    otherwise the selector returns that server and that tool. *)
Theorem selection_response_outcomes infos llmText w :
  (~ SelectionFormat llmText ->
   resolveSelection infos llmText w = (Throw (selectorThrows (SelectionParseError llmText)), w))
  /\ (forall g1 g2,
        String_match selection_pattern llmText = Some (g1, g2) ->
        SelectionFormat llmText
        /\ ((forall info, info ∈ infos -> path info <> trim g1) ->
            resolveSelection infos llmText w
            = (Throw (selectorThrows (UnknownBackendSelected (trim g1))), w))
        /\ (forall srv,
              List.find (fun info => str_eqb (path info) (trim g1)) infos = Some srv ->
              srv ∈ infos /\ path srv = trim g1
              /\ ((forall t, t ∈ tools srv -> name t <> trim g2) ->
                  resolveSelection infos llmText w
                  = (Throw (selectorThrows (UnknownToolSelected (trim g2))), w))
              /\ (forall t,
                    List.find (fun t => str_eqb (name t) (trim g2)) (tools srv) = Some t ->
                    t ∈ tools srv /\ name t = trim g2
                    /\ exists w', resolveSelection infos llmText w
                                  = (Normal (mkSelection srv t), w')))).
Proof.
  split.
  - intros H%selection_match_None. unfold resolveSelection. by rewrite H.
  - intros g1 g2 Hm. split.
    { by apply selection_match_format in Hm. }
    unfold resolveSelection. rewrite Hm. split.
    + intros Hno.
      assert (List.find (fun info => str_eqb (path info) (trim g1)) infos = None) as ->; [|done].
      apply find_none_iff. intros x Hx. apply bool_decide_eq_false_2. by apply Hno.
    + intros srv Hsrv. rewrite Hsrv.
      apply find_some in Hsrv as Hs. destruct Hs as [Hin Hp].
      apply list_elem_of_In in Hin. apply bool_decide_eq_true_1 in Hp.
      split; [done|]. split; [done|]. split.
      * intros Hno.
        assert (List.find (fun t => str_eqb (name t) (trim g2)) (tools srv) = None) as ->; [|done].
        apply find_none_iff. intros x Hx. apply bool_decide_eq_false_2. by apply Hno.
      * intros t Ht. rewrite Ht. apply find_some in Ht as [Hint Hn].
        apply list_elem_of_In in Hint. apply bool_decide_eq_true_1 in Hn.
        split; [done|]. split; [done|].
        unfold bind. rewrite closeUnselected_spec. eexists. reflexivity.
Qed.


(** C7. In native mode, when the model's response has only text blocks,
    the answer is their text (joined by line feeds) and the world is left
    as it was: no tool call is sent. *)
Theorem plain_text_response_short_circuits env mcp ts query w blocks :
  messages_create env 1000 [userMessage (JStr query)] (Some ts) = inr blocks ->
  forallb isTextBlock blocks = true ->
  AnthropicApi.processQuery env mcp ts query w
  = (Normal (join [10%N] (blockTexts blocks)), w).
Proof.
  intros Hresp Htext. unfold AnthropicApi.processQuery, processQuery_native.
  unfold bind at 1. unfold await. rewrite Hresp. unfold ret at 1. unfold bind.
  by rewrite processBlocks_text_only.
Qed.


(** C10. An array that has text items whose texts join to the empty
    string is not normalised to the empty string: the result is the
    pretty-printed form of the whole array, which is never empty. *)
Theorem empty_joined_text_falls_back items :
  (forall item, item ∈ items -> item <> JNull) ->
  omap textOf items <> [] ->
  join [10%N; 10%N] (omap textOf items) = [] ->
  normalizeContent (JArr items) = inr (JSON_stringify (JArr items) 2)
  /\ JSON_stringify (JArr items) 2 <> [].
Proof.
  intros Hnn _ Hjoin. rewrite normalize_array by done. cbv zeta. rewrite Hjoin.
  split; [done|]. apply stringify_nonempty.
Qed.

Lemma wfWorld_initial : wfWorld initial_world.
Proof. intros c Hc. by apply not_elem_of_empty in Hc. Qed.

(** C1. One reachable server, a valid selection, and the user answers
    "no": in both variants the turn ends normally without any tool call, and
    the connection of the selected server is still open. *)
Theorem declined_confirmation_leaves_connection_open :
  let env := demo_env weather_reply tokyo_reply in
  let a := AnthropicApi.mainTurn env [weather_js] tokyo_query (js "no") initial_world in
  let g := GeminiApi.mainTurn env [weather_js] tokyo_query (js "no") initial_world in
  (fst a = Normal tt /\ calls (snd a) = [] /\ open_conns (snd a) = {[0]})
  /\ (fst g = Normal tt /\ calls (snd g) = [] /\ open_conns (snd g) = {[0]}).
Proof. vm_compute. done. Qed.

(** C8. A script whose name ends in neither .js nor .py: [getServerTools]
    spawns it with the node binary and connects, where [connectToServer] of
    the single-server variant throws before spawning anything. *)
Theorem getServerTools_spawns_unrecognized_extension :
  let env := demo_env weather_reply tokyo_reply in
  let script := js "/srv/tool.txt" in
  let r := GeminiApi.getServerTools env script initial_world in
  endsWith script (js ".js") = false /\ endsWith script (js ".py") = false
  /\ fst r = Normal ([], 0)
  /\ spawns (snd r) = [(js "/usr/bin/node", script)]
  /\ open_conns (snd r) = {[0]}
  /\ SingleServer.connectToServer env 0 script initial_world
     = (Throw (JsError (js "Server script must be a .js or .py file")), initial_world).
Proof. vm_compute. done. Qed.





(** C4, witness. *)
Lemma selection_response_outcomes_witness :
  resolveSelection [weather_info] (js "I cannot choose") connected_world
  = (Throw (JsError (msg_no_tool_selection ++ js "I cannot choose")), connected_world)
  /\ exists w', resolveSelection [weather_info] weather_reply connected_world
                = (Normal (mkSelection weather_info (convertTool get_weather)), w').
Proof.
  split.
  - apply (proj1 (selection_response_outcomes [weather_info] (js "I cannot choose")
                    connected_world)).
    apply selection_match_None. vm_compute. reflexivity.
  - destruct (proj2 (selection_response_outcomes [weather_info] weather_reply connected_world)
                (js "/srv/weather.js") (js "get_weather") ltac:(vm_compute; reflexivity))
      as (_ & _ & H).
    destruct (H weather_info ltac:(vm_compute; reflexivity)) as (_ & _ & _ & H').
    destruct (H' (convertTool get_weather) ltac:(vm_compute; reflexivity)) as (_ & _ & Hres).
    exact Hres.
Defined.





(** C7, witness. *)
Lemma plain_text_response_short_circuits_witness :
  let env := demo_env weather_reply (js "Hello") in
  AnthropicApi.processQuery env 0 [convertTool get_weather] tokyo_query connected_world
  = (Normal (js "Hello"), connected_world).
Proof.
  intros env.
  exact (plain_text_response_short_circuits env 0 [convertTool get_weather] tokyo_query
           connected_world [TextBlock (js "Hello")] eq_refl eq_refl).
Defined.

(** C10, witness. *)
Lemma empty_joined_text_falls_back_witness :
  normalizeContent (JArr [textItem []]) = inr (JSON_stringify (JArr [textItem []]) 2)
  /\ JSON_stringify (JArr [textItem []]) 2 <> [].
Proof.
  apply empty_joined_text_falls_back.
  - intros item Hin. apply list_elem_of_singleton in Hin. subst item. discriminate.
  - vm_compute. discriminate.
  - vm_compute. reflexivity.
Defined.

(** * Further properties of the code *)

(** ** What the invokers send *)

Section MoreInvokerFacts.
Variable env : Env.

Lemma processBlocks_calls mcp blocks : forall messages finalText w c w',
  processBlocks env mcp blocks messages finalText w = (c, w') ->
  exists n,
    calls w' = calls w ++ take n (toolUses mcp blocks)
    /\ (isNormal_completion c = true -> n = length (toolUses mcp blocks)).
Proof.
  induction blocks as [|b rest IH]; intros messages finalText w c w'; cbn [processBlocks].
  - intros [= <- <-]. exists 0. cbn. by rewrite app_nil_r.
  - destruct b as [t|nm args|].
    + apply IH.
    + unfold bind at 1. unfold callTool.
      destruct (decide (mcp ∈ open_conns w)) as [Hin|Hout].
      2:{ intros [= <- <-]. exists 0. cbn. by rewrite app_nil_r. }
      destruct (callTool_outcome env mcp nm args) as [e|result].
      { intros [= <- <-]. exists 1. cbn. done. }
      unfold bind at 1, await.
      destruct (messages_create env 1000 _ None) as [e|response].
      { intros [= <- <-]. exists 1. cbn. done. }
      unfold ret at 1. unfold bind at 1.
      assert (Hstep : forall text,
        processBlocks env mcp rest (messages ++ [userMessage result])
          ((finalText ++ [js "[Calling tool " ++ nm ++ js " with args "
                            ++ JSON_stringify args 0 ++ js "]"]) ++ [text])
          (mkWorld (next_client w) (open_conns w) (spawns w)
             (calls w ++ [mkCall mcp nm args])) = (c, w') ->
        exists n,
          calls w' = calls w ++ take n (toolUses mcp (ToolUseBlock nm args :: rest))
          /\ (isNormal_completion c = true ->
              n = length (toolUses mcp (ToolUseBlock nm args :: rest)))).
      { intros text (n & Hc & Hn)%IH. exists (S n). rewrite Hc. cbn [calls].
        split; [by rewrite <- app_assoc|]. intros H. cbn. f_equal. by apply Hn. }
      destruct response as [|[t| |] ?]; unfold throw, ret; try apply Hstep.
      intros [= <- <-]. exists 1. cbn. done.
    + apply IH.
Qed.

(** X1. In native mode every tool-use block of the model's response is sent
    to the backend, in order and with the model's arguments; when
    [processQuery] throws, what was sent is a prefix of them. *)
Theorem native_tool_calls_follow_response mcp ts query w blocks c w' :
  messages_create env 1000 [userMessage (JStr query)] (Some ts) = inr blocks ->
  AnthropicApi.processQuery env mcp ts query w = (c, w') ->
  exists n,
    calls w' = calls w ++ take n (toolUses mcp blocks)
    /\ (isNormal_completion c = true -> calls w' = calls w ++ toolUses mcp blocks).
Proof.
  intros Hresp. unfold AnthropicApi.processQuery, processQuery_native.
  unfold bind at 1. unfold await. rewrite Hresp. unfold ret at 1. unfold bind.
  destruct (processBlocks env mcp blocks [userMessage (JStr query)] [] w)
    as [[finalText|e] w1] eqn:E; intros [= <- <-];
    apply processBlocks_calls in E as (n & Hc & Hn); exists n; (split; [done|]).
  - intros _. rewrite Hc, (Hn eq_refl). by rewrite firstn_all.
  - done.
Qed.

(** X2. In prompt-derived mode a query sends at most one tool call, and an
    answer is only returned after exactly one; the answer carries the fixed
    label. *)
Theorem prompted_query_calls_at_most_once mcp ts query w c w' :
  GeminiApi.processQuery env mcp ts query w = (c, w') ->
  (calls w' = calls w \/ exists nm args, calls w' = calls w ++ [mkCall mcp nm args])
  /\ (forall answer, c = Normal answer ->
        (exists nm args, calls w' = calls w ++ [mkCall mcp nm args])
        /\ exists text, answer = answer_label ++ text).
Proof.
  unfold GeminiApi.processQuery, processQuery_prompted, bind, await.
  destruct (generateContent env _ (invocationPrompt query ts)) as [e|result];
    [intros [= <- <-]; split; [by left|done]|].
  unfold ret at 1.
  destruct (String_match _ _) as [[g1 g2]|]; [|intros [= <- <-]; split; [by left|done]].
  destruct (JSON_parse g2) as [args|]; [|intros [= <- <-]; split; [by left|done]].
  unfold callTool. destruct (decide (mcp ∈ open_conns w));
    [|intros [= <- <-]; split; [by left|done]].
  destruct (callTool_outcome env mcp (trim g1) args) as [e1|r];
    [intros [= <- <-]; split; [right; eauto|done]|].
  destruct (normalizeContent r) as [e2|text];
    [intros [= <- <-]; split; [right; eauto|done]|].
  unfold ret. destruct (generateContent env _ (answerPrompt query text)) as [e3|ans];
    intros [= <- <-]; (split; [right; by eauto|]); [done|].
  intros answer [= <-]. split; eauto.
Qed.
End MoreInvokerFacts.

(** ** The confirmed turn and the confirmation *)

Section ControllerFacts.
Variable env : Env.

Lemma selected_is_fresh convertTool cands n (open : gset ClientId) srv :
  (forall c, c ∈ open -> c < n) ->
  srv ∈ discovered env convertTool cands n ->
  client srv ∉ open ∪ halfOpen env cands n.
Proof.
  intros Hwf Hsrv. rewrite elem_of_union. intros [Ho|Hh].
  - apply Hwf in Ho. apply discovered_client_range in Hsrv. lia.
  - by apply (halfOpen_not_discovered env convertTool) in Hsrv.
Qed.

Lemma confirmed_turn_generic convertTool ask processQuery cands query confirm w :
  pureCall ask ->
  (forall mcp ts q w0, open_conns (snd (processQuery mcp ts q w0)) = open_conns w0) ->
  wfWorld w -> NoDup cands ->
  isNormal_completion
    (fst (selectServerScriptWith env convertTool ask cands query w)) = true ->
  affirmative confirm = true ->
  open_conns (snd (mainTurn (selectServerScriptWith env convertTool ask cands)
                     processQuery query confirm w))
  = open_conns w ∪ halfOpen env cands (next_client w).
Proof.
  intros Hask Hp Hwf Hnd Hsel Hc.
  destruct (selectServerScriptWith env convertTool ask cands query w) as [[sel|e] w1] eqn:E;
    [|done].
  rewrite (mainTurn_confirmed _ _ query confirm w sel w1 E Hc Hp).
  pose proof (select_success env convertTool ask cands query w sel w1 Hask E)
    as (Hin & _ & _ & _ & ->).
  rewrite (kept_after_selection env convertTool cands (next_client w) (open_conns w)
             (selectedServer sel) Hnd Hwf Hin).
  pose proof (selected_is_fresh convertTool cands (next_client w) (open_conns w)
                (selectedServer sel) Hwf Hin).
  set_solver.
Qed.

(** X3. After a confirmed turn the selected connection is closed whether
    [processQuery] returned or threw: what is open is what was open before
    the turn and the connections of the candidates that connected and failed
    to list their tools. *)
Theorem confirmed_turn_closes_selected cands query confirm w :
  wfWorld w -> NoDup cands -> affirmative confirm = true ->
  (isNormal_completion (fst (AnthropicApi.selectServerScript env cands query w)) = true ->
   open_conns (snd (AnthropicApi.mainTurn env cands query confirm w))
   = open_conns w ∪ halfOpen env cands (next_client w))
  /\ (isNormal_completion (fst (GeminiApi.selectServerScript env cands query w)) = true ->
      open_conns (snd (GeminiApi.mainTurn env cands query confirm w))
      = open_conns w ∪ halfOpen env cands (next_client w)).
Proof.
  intros Hwf Hnd Hc. split; intros Hsel.
  - apply confirmed_turn_generic; try done; [apply askAnthropic_pure|].
    intros. apply processQuery_native_conns.
  - apply confirmed_turn_generic; try done; [apply askGemini_pure|].
    intros. apply processQuery_prompted_conns.
Qed.

(** X4. A response that does not have the format, once some server is
    reachable: the error is caught, the turn ends normally with no tool
    call, and every connection made during discovery is still open. *)
Theorem unparsable_selection_leaves_all_open cands query confirm w reply :
  (exists p, p ∈ cands /\ isReachable env p = true) ->
  generateContent env (js "gemini-1.5-flash")
    (selectionPrompt query (registry env convertToolGemini cands)) = inr reply ->
  ~ SelectionFormat (trim reply) ->
  exists w',
    GeminiApi.mainTurn env cands query confirm w = (Normal tt, w')
    /\ calls w' = calls w
    /\ open_conns w' = connected env cands (next_client w) ∪ open_conns w.
Proof.
  intros (p & Hp & Hr) Hreply Hfmt.
  assert (Hsel : GeminiApi.selectServerScript env cands query w
    = (Throw (JsError (msg_no_tool_selection ++ trim reply)),
       mkWorld (next_client w + length cands)
         (connected env cands (next_client w) ∪ open_conns w)
         (spawns w ++ map (fun p => (commandFor env p, p)) cands) (calls w))).
  { unfold GeminiApi.selectServerScript, selectServerScriptWith. unfold bind at 1.
    rewrite discover_spec. cbn [app].
    assert (discovered env convertToolGemini cands (next_client w) <> []) as Hne.
    { intros Hnil. pose proof (discovered_paths env convertToolGemini cands (next_client w)) as Hd.
      rewrite Hnil in Hd. cbn in Hd.
      assert (p ∈ List.filter (isReachable env) cands) as Hin.
      { apply list_elem_of_In, filter_In. split; [by apply list_elem_of_In|done]. }
      rewrite <- Hd in Hin. by apply elem_of_nil in Hin. }
    destruct (discovered env convertToolGemini cands (next_client w)) as [|i l] eqn:Hd; [done|].
    cbn [length Nat.eqb]. rewrite <- Hd, aggregate_discovered.
    unfold bind at 1. unfold askGemini, bind, await. rewrite Hreply. unfold ret.
    apply selection_match_None in Hfmt. unfold resolveSelection. by rewrite Hfmt. }
  eexists. split; [|split].
  - unfold GeminiApi.mainTurn. by apply (mainTurn_selection_failed _ _ _ _ _ _ _ Hsel).
  - done.
  - done.
Qed.
End ControllerFacts.

(** X5. The confirmation is case-insensitive and ignores surrounding white
    space: the trimmed answer is o or O followed by k, K or the Kelvin
    sign. *)
Theorem affirmative_iff confirm :
  affirmative confirm = true <->
  exists a b, trim confirm = [a; b]
              /\ (a = 111%N \/ a = 79%N) /\ (b = 107%N \/ b = 75%N \/ b = 8490%N).
Proof.
  unfold affirmative, str_eqb. rewrite bool_decide_eq_true. unfold toLowerCase.
  change (js "ok") with [111%N; 107%N].
  assert (Ho : forall a, lowerUnit a = 111%N <-> a = 111%N \/ a = 79%N).
  { intros a. unfold lowerUnit.
    destruct (N.leb_spec 65 a); destruct (N.leb_spec a 90); cbn [andb];
      try destruct (N.eqb_spec a 8490); lia. }
  assert (Hk : forall b, lowerUnit b = 107%N <-> b = 107%N \/ b = 75%N \/ b = 8490%N).
  { intros b. unfold lowerUnit.
    destruct (N.leb_spec 65 b); destruct (N.leb_spec b 90); cbn [andb];
      try destruct (N.eqb_spec b 8490); lia. }
  split.
  - destruct (trim confirm) as [|a [|b [|c l]]]; try done.
    cbn [map]. intros [= Ha Hb]. exists a, b. rewrite <- Ho, <- Hk. done.
  - intros (a & b & -> & Ha & Hb). cbn [map]. apply Ho in Ha. apply Hk in Hb. congruence.
Qed.

(** ** The scoring selector *)

Section MoreScoreFacts.
Variable env : Env.

Lemma scoreCandidates_result query cands : forall bs best w,
  fst (scoreCandidates env query cands bs best w)
  = Normal (bestOf query (discovered env convertTool cands (next_client w)) bs best).
Proof.
  induction cands as [|p rest IH]; intros bs best w; [done|]. cbn [scoreCandidates discovered].
  unfold bind at 1. unfold try_catch. unfold bind at 1.
  rewrite getServerTools_probe. cbv zeta.
  destruct (probe env p) as [e|e|ts]; cbn [ret fst snd]; try (by rewrite IH).
  cbn [bestOf tools]. destruct (bs <? score query (map convertTool ts))%Z.
  - unfold bind at 1.
    destruct best as [b|]; unfold close, ret; cbn [fst snd]; by rewrite IH.
  - unfold bind at 1, close. cbn [ret fst snd]. by rewrite IH.
Qed.

Lemma bestOf_spec query infos : forall bs best pre,
  (forall b, best = Some b ->
     bs = score query (tools b)
     /\ exists l1 l2, pre = l1 ++ b :: l2
          /\ (forall i, i ∈ l1 -> (score query (tools i) < bs)%Z)
          /\ (forall i, i ∈ l2 -> (score query (tools i) <= bs)%Z)) ->
  (best = None -> pre = [] /\ (bs < 0)%Z) ->
  match bestOf query infos bs best with
  | Some b =>
      exists l1 l2, pre ++ infos = l1 ++ b :: l2
        /\ (forall i, i ∈ l1 -> (score query (tools i) < score query (tools b))%Z)
        /\ (forall i, i ∈ l2 -> (score query (tools i) <= score query (tools b))%Z)
  | None => infos = [] /\ best = None
  end.
Proof.
  induction infos as [|i rest IH]; intros bs best pre Hsome Hnone; cbn [bestOf].
  - destruct best as [b|]; [|done].
    destruct (Hsome b eq_refl) as (-> & l1 & l2 & -> & H1 & H2).
    exists l1, l2. by rewrite app_nil_r.
  - destruct (bs <? score query (tools i))%Z eqn:Hlt.
    + apply Z.ltb_lt in Hlt.
      specialize (IH (score query (tools i)) (Some i) (pre ++ [i])).
      destruct (bestOf query rest (score query (tools i)) (Some i)) as [b|].
      * rewrite <- app_assoc in IH. apply IH; [|done].
        intros b0 [= <-]. split; [done|]. exists pre, []. split; [done|].
        split; [|by intros ? ?%elem_of_nil].
        intros j Hj. destruct best as [b0|].
        -- destruct (Hsome b0 eq_refl) as (-> & l1 & l2 & -> & H1 & H2).
           apply elem_of_app in Hj as [Hj|Hj]; [apply H1 in Hj; lia|].
           apply elem_of_cons in Hj as [->|Hj]; [lia|]. apply H2 in Hj. lia.
        -- destruct (Hnone eq_refl) as [-> _]. by apply elem_of_nil in Hj.
      * destruct IH as [_ ?]; [|done|done].
        intros b0 [= <-]. split; [done|]. exists pre, []. split; [done|].
        split; [|by intros ? ?%elem_of_nil].
        intros j Hj. destruct best as [b0|].
        -- destruct (Hsome b0 eq_refl) as (-> & l1 & l2 & -> & H1 & H2).
           apply elem_of_app in Hj as [Hj|Hj]; [apply H1 in Hj; lia|].
           apply elem_of_cons in Hj as [->|Hj]; [lia|]. apply H2 in Hj. lia.
        -- destruct (Hnone eq_refl) as [-> _]. by apply elem_of_nil in Hj.
    + apply Z.ltb_ge in Hlt.
      destruct best as [b0|].
      * specialize (IH bs (Some b0) (pre ++ [i])).
        destruct (bestOf query rest bs (Some b0)) as [b|].
        -- rewrite <- app_assoc in IH. apply IH; [|done].
           intros b1 [= <-]. destruct (Hsome b0 eq_refl) as (-> & l1 & l2 & -> & H1 & H2).
           split; [done|]. exists l1, (l2 ++ [i]). split; [by rewrite <- !app_assoc|].
           split; [done|]. intros j [Hj|Hj]%elem_of_app; [by apply H2|].
           apply list_elem_of_singleton in Hj as ->. done.
        -- destruct IH as [_ ?]; [|done|done].
           intros b1 [= <-]. destruct (Hsome b0 eq_refl) as (-> & l1 & l2 & -> & H1 & H2).
           split; [done|]. exists l1, (l2 ++ [i]). split; [by rewrite <- !app_assoc|].
           split; [done|]. intros j [Hj|Hj]%elem_of_app; [by apply H2|].
           apply list_elem_of_singleton in Hj as ->. done.
      * destruct (Hnone eq_refl) as [-> Hneg].
        pose proof (score_nonneg query (tools i)). lia.
Qed.

(** X6. The scoring selector returns the reachable server with the greatest
    score, and among several with that score the first in candidate
    order. *)
Theorem score_selects_first_maximum cands query w b w' :
  ScoreVariant.selectServerScript env cands query w = (Normal b, w') ->
  exists l1 l2,
    discovered env convertTool cands (next_client w) = l1 ++ b :: l2
    /\ (forall i, i ∈ l1 -> (score query (tools i) < score query (tools b))%Z)
    /\ (forall i, i ∈ l2 -> (score query (tools i) <= score query (tools b))%Z).
Proof.
  unfold ScoreVariant.selectServerScript, selectServerScript_by_score, bind.
  pose proof (scoreCandidates_result query cands (-1)%Z None w) as Hres.
  destruct (scoreCandidates env query cands (-1)%Z None w) as [[best|e] w1];
    cbn [fst] in Hres; [|done]. injection Hres as ->.
  pose proof (bestOf_spec query (discovered env convertTool cands (next_client w))
                (-1)%Z None [] ltac:(done) ltac:(split; [done|lia])) as Hspec.
  destruct (bestOf query _ (-1)%Z None) as [b0|]; [|done].
  unfold ret. intros [= <- <-]. exact Hspec.
Qed.

(** X7. The scoring selector fails exactly when no candidate is reachable. *)
Theorem score_selector_fails_iff_none_reachable cands query w :
  (exists w', ScoreVariant.selectServerScript env cands query w
              = (Throw (JsError (js "No suitable MCP server found.")), w'))
  <-> (forall p, p ∈ cands -> isReachable env p = false).
Proof.
  unfold ScoreVariant.selectServerScript, selectServerScript_by_score, bind.
  pose proof (scoreCandidates_result query cands (-1)%Z None w) as Hres.
  destruct (scoreCandidates env query cands (-1)%Z None w) as [[best|e] w1];
    cbn [fst] in Hres; [|done]. injection Hres as ->.
  pose proof (bestOf_spec query (discovered env convertTool cands (next_client w))
                (-1)%Z None [] ltac:(done) ltac:(split; [done|lia])) as Hspec.
  pose proof (discovered_paths env convertTool cands (next_client w)) as Hpaths.
  destruct (bestOf query _ (-1)%Z None) as [b0|].
  - split; [by intros [w' H]|]. intros Hall. exfalso.
    destruct Hspec as (l1 & l2 & Hd & _). cbn [app] in Hd. rewrite Hd in Hpaths.
    assert (path b0 ∈ List.filter (isReachable env) cands) as Hin.
    { rewrite <- Hpaths, map_app. cbn [map]. apply elem_of_app. right. by left. }
    apply list_elem_of_In, filter_In in Hin as [Hin Hr]. apply list_elem_of_In in Hin.
    rewrite (Hall _ Hin) in Hr. done.
  - split; [|by eexists]. intros _ p Hp.
    destruct Hspec as [Hd _]. cbn [app] in Hd. rewrite Hd in Hpaths. cbn [map] in Hpaths.
    destruct (isReachable env p) eqn:Hr; [|done]. exfalso.
    assert (p ∈ List.filter (isReachable env) cands) as Hin.
    { apply list_elem_of_In, filter_In. split; [by apply list_elem_of_In|done]. }
    rewrite <- Hpaths in Hin. by apply elem_of_nil in Hin.
Qed.
End MoreScoreFacts.

(** ** Responses in the requested format *)

Lemma starLoop_lazy_stop cls k s r :
  k s = Some r -> starLoop false cls k s = Some r.
Proof.
  intros Hk. destruct s as [|c s]; cbn [starLoop]; [done|].
  destruct (classMatches cls c); [|done]. by rewrite Hk.
Qed.

Lemma starLoop_lazy_skip cls k xs : forall rest,
  forallb (classMatches cls) xs = true ->
  (forall i, i < length xs -> k (drop i xs ++ rest) = None) ->
  starLoop false cls k (xs ++ rest) = starLoop false cls k rest.
Proof.
  induction xs as [|x xs IH]; intros rest Hall Hk; [done|].
  cbn [forallb] in Hall. apply andb_true_iff in Hall as [Hx Hall].
  cbn [app starLoop]. rewrite Hx.
  pose proof (Hk 0 ltac:(simpl; lia)) as H0. cbn [drop app] in H0. rewrite H0.
  apply IH; [done|].
  intros i Hi. apply (Hk (S i)). simpl. lia.
Qed.

Lemma starLoop_greedy_upto cls k ws rest r :
  forallb (classMatches cls) ws = true ->
  k rest = Some r ->
  match rest with [] => True | c :: _ => classMatches cls c = false end ->
  starLoop true cls k (ws ++ rest) = Some r.
Proof.
  intros Hall Hk Hrest. induction ws as [|x ws IH]; cbn [app].
  - destruct rest as [|c rest]; cbn [starLoop]; [done|]. by rewrite Hrest.
  - cbn [forallb] in Hall. apply andb_true_iff in Hall as [Hx Hall].
    cbn [starLoop]. rewrite Hx. by rewrite IH.
Qed.

Lemma starLoop_greedy_all cls k xs r :
  forallb (classMatches cls) xs = true -> k [] = Some r ->
  starLoop true cls k xs = Some r.
Proof.
  intros Hall Hk. rewrite <- (app_nil_r xs). by apply starLoop_greedy_upto.
Qed.

Lemma starLoop_greedy_back cls k xs c r :
  forallb (classMatches cls) xs = true -> classMatches cls c = true ->
  k [] = None -> k [c] = Some r ->
  starLoop true cls k (xs ++ [c]) = Some r.
Proof.
  intros Hall Hc Hnil Hk. induction xs as [|x xs IH]; cbn [app starLoop].
  - by rewrite Hc, Hnil.
  - cbn [forallb] in Hall. apply andb_true_iff in Hall as [Hx Hall].
    rewrite Hx. by rewrite IH.
Qed.

Lemma matchHere_literal l re : forall s marks,
  matchHere (map (fun c => Char (Lit c)) l ++ re) (l ++ s) marks = matchHere re s marks.
Proof.
  induction l as [|a l IH]; intros s marks; [done|].
  cbn [map app matchHere classMatches]. by rewrite N.eqb_refl.
Qed.

Lemma exec_at_head re s marks :
  matchHere re s [] = Some marks -> exec re s = Some marks.
Proof. intros H. destruct s; cbn [exec]; by rewrite H. Qed.

Lemma plainField_dot s : plainField s -> forallb (classMatches Dot) s = true.
Proof.
  unfold plainField. induction s as [|c s IH]; [done|]. cbn [forallb classMatches].
  intros [[_ ->]%andb_true_iff H]%andb_true_iff. by apply IH.
Qed.

Lemma plainField_drop s i c tl :
  plainField s -> drop i s = c :: tl -> N.eqb c 44 = false.
Proof.
  unfold plainField. intros Hall Hd.
  assert (c ∈ s) as Hin.
  { rewrite <- (take_drop i s), Hd. apply elem_of_app. right. by left. }
  rewrite forallb_forall in Hall. apply list_elem_of_In in Hin.
  apply Hall in Hin. apply andb_true_iff in Hin as [Hc _]. by apply negb_true_iff in Hc.
Qed.

Lemma selection_match_exact P N :
  plainField P -> noLineTerminator N ->
  String_match selection_pattern (js "path=" ++ P ++ js ", name=" ++ N) = Some (P, N).
Proof.
  intros HP HN. unfold String_match.
  assert (Hm : matchHere selection_pattern (js "path=" ++ P ++ js ", name=" ++ N) []
               = Some [[]; N; js ", name=" ++ N; P ++ js ", name=" ++ N]).
  { unfold selection_pattern, literal. rewrite matchHere_literal.
    cbn [app matchHere].
    rewrite starLoop_lazy_skip.
    - apply starLoop_lazy_stop. cbn [matchHere].
      change (js ", name=" ++ N) with (js "," ++ js " " ++ js "name=" ++ N).
      rewrite matchHere_literal. cbn [app matchHere].
      rewrite (starLoop_greedy_upto Space _ (js " ") (js "name=" ++ N)
                 [[]; N; js "," ++ js " " ++ js "name=" ++ N;
                  P ++ js "," ++ js " " ++ js "name=" ++ N]); try done.
      rewrite matchHere_literal. cbn [app matchHere].
      by apply starLoop_greedy_all.
    - by apply plainField_dot.
    - intros i Hi. destruct (drop i P) as [|c tl] eqn:Hd.
      + apply (f_equal length) in Hd. rewrite length_drop in Hd. simpl in Hd. lia.
      + cbn [app matchHere]. change (js ",") with [44%N].
        cbn [map app matchHere classMatches].
        by rewrite (plainField_drop P i c tl HP Hd). }
  rewrite (exec_at_head _ _ _ Hm). cbn [captures app].
  rewrite (take_app_length_diff P (js ", name=" ++ N)).
  change (take (length N - length ([] : jsstring)) N) with (take (length N - 0) N).
  by rewrite Nat.sub_0_r, firstn_all.
Qed.

(** X8. A response that is exactly [path=P, name=N] for a discovered server
    and one of its tools is accepted: the selector returns that server and
    that tool. The path must have no comma, and neither field a line
    terminator or white space at its ends. *)
Theorem selector_accepts_requested_format infos srv t w :
  List.find (fun info => str_eqb (path info) (path srv)) infos = Some srv ->
  List.find (fun x => str_eqb (name x) (name t)) (tools srv) = Some t ->
  plainField (path srv) -> noLineTerminator (name t) ->
  trim (path srv) = path srv -> trim (name t) = name t ->
  exists w',
    resolveSelection infos (js "path=" ++ path srv ++ js ", name=" ++ name t) w
    = (Normal (mkSelection srv t), w').
Proof.
  intros Hsrv Ht HP HN HtP HtN. unfold resolveSelection.
  rewrite (selection_match_exact _ _ HP HN), HtP, HtN, Hsrv, Ht.
  unfold bind. rewrite closeUnselected_spec. eexists. reflexivity.
Qed.

Lemma trimStart_head c s : isSpace c = false -> trimStart (c :: s) = c :: s.
Proof. intros H. cbn [trimStart]. by rewrite H. Qed.

Lemma trim_unchanged c s z :
  isSpace c = false -> isSpace z = false -> trim (c :: s ++ [z]) = c :: s ++ [z].
Proof.
  intros Hc Hz. unfold trim, trimEnd. rewrite trimStart_head by done.
  change (c :: s ++ [z]) with ((c :: s) ++ [z]). rewrite rev_app_distr.
  cbn [rev app]. rewrite trimStart_head by done.
  change (z :: rev s ++ [c]) with ([z] ++ rev (c :: s)).
  rewrite rev_app_distr, rev_involutive. done.
Qed.

Lemma instruction_match_exact T body :
  plainField T -> noLineTerminator body ->
  String_match instruction_pattern (js "name=" ++ T ++ js ", args=" ++ js "{" ++ body ++ js "}")
  = Some (T, js "{" ++ body ++ js "}").
Proof.
  intros HT HB. unfold String_match.
  assert (Hm : matchHere instruction_pattern
                 (js "name=" ++ T ++ js ", args=" ++ js "{" ++ body ++ js "}") []
               = Some [[]; js "{" ++ body ++ js "}";
                       js ", args=" ++ js "{" ++ body ++ js "}";
                       T ++ js ", args=" ++ js "{" ++ body ++ js "}"]).
  { unfold instruction_pattern, literal. rewrite matchHere_literal.
    cbn [app matchHere].
    rewrite starLoop_lazy_skip.
    - apply starLoop_lazy_stop. cbn [matchHere].
      change (js ", args=" ++ js "{" ++ body ++ js "}")
        with (js "," ++ js " " ++ js "args=" ++ js "{" ++ body ++ js "}").
      rewrite matchHere_literal. cbn [app matchHere].
      rewrite (starLoop_greedy_upto Space _ (js " ") (js "args=" ++ js "{" ++ body ++ js "}")
                 [[]; js "{" ++ body ++ js "}";
                  js "," ++ js " " ++ js "args=" ++ js "{" ++ body ++ js "}";
                  T ++ js "," ++ js " " ++ js "args=" ++ js "{" ++ body ++ js "}"]); try done.
      rewrite matchHere_literal. cbn [app matchHere].
      rewrite matchHere_literal. cbn [app matchHere].
      change (js "}") with [125%N].
      apply starLoop_greedy_back; try done.
    - by apply plainField_dot.
    - intros i Hi. destruct (drop i T) as [|c tl] eqn:Hd.
      + apply (f_equal length) in Hd. rewrite length_drop in Hd. simpl in Hd. lia.
      + cbn [app matchHere]. change (js ",") with [44%N].
        cbn [map app matchHere classMatches].
        by rewrite (plainField_drop T i c tl HT Hd). }
  rewrite (exec_at_head _ _ _ Hm). cbn [captures app].
  rewrite (take_app_length_diff T (js ", args=" ++ js "{" ++ body ++ js "}")).
  change (take (length (js "{" ++ body ++ js "}") - length ([] : jsstring))
            (js "{" ++ body ++ js "}"))
    with (take (length (js "{" ++ body ++ js "}") - 0) (js "{" ++ body ++ js "}")).
  by rewrite Nat.sub_0_r, firstn_all.
Qed.

(** The compact text of an object is an opening brace, a body and a
    closing brace. *)
Lemma stringify_object_braces props :
  exists body, JSON_stringify (JObj props) 0 = js "{" ++ body ++ js "}".
Proof.
  unfold JSON_stringify. cbn [serializeJSON Nat.min replicate].
  destruct props as [|kv props]; [by exists []|].
  cbn [map]. rewrite wrapPartial_cons. unfold leadOf. cbn [isEmptyString app].
  eexists. reflexivity.
Qed.

Lemma noLineTerminator_inner a body z :
  noLineTerminator (a :: body ++ [z]) -> noLineTerminator body.
Proof.
  unfold noLineTerminator. cbn [forallb]. rewrite forallb_app.
  by intros [_ [? _]%andb_true_iff]%andb_true_iff.
Qed.

(** X9. A response that is exactly [name=T, args=J], where [J] is the
    compact JSON text of an object, makes the prompt-derived invoker call
    the tool [T] with that object. [T] must have no comma, and neither [T]
    nor [J] a line terminator. *)
Theorem invoker_accepts_requested_format env mcp ts query w T props :
  generateContent env (js "gemini-1.5-flash") (invocationPrompt query ts)
  = inr (js "name=" ++ T ++ js ", args=" ++ JSON_stringify (JObj props) 0) ->
  plainField T -> noLineTerminator (JSON_stringify (JObj props) 0) ->
  Canonical (JObj props) -> mcp ∈ open_conns w ->
  calls (snd (GeminiApi.processQuery env mcp ts query w))
  = calls w ++ [mkCall mcp (trim T) (JObj props)].
Proof.
  intros Hreply HT HJ Hcan Hopen.
  destruct (stringify_object_braces props) as [body Hbody].
  pose proof (JSON_parse_stringify (JObj props) 0 Hcan) as Hparse.
  rewrite Hbody in *.
  assert (Htrim : trim (js "name=" ++ T ++ js ", args=" ++ js "{" ++ body ++ js "}")
                  = js "name=" ++ T ++ js ", args=" ++ js "{" ++ body ++ js "}").
  { change (js "name=") with (110%N :: js "ame=").
    change (js "}") with [125%N]. cbn [app].
    replace (js "ame=" ++ T ++ js ", args=" ++ js "{" ++ body ++ [125%N])
      with ((js "ame=" ++ T ++ js ", args=" ++ js "{" ++ body) ++ [125%N])
      by (by rewrite <- !app_assoc).
    by apply trim_unchanged. }
  unfold GeminiApi.processQuery, processQuery_prompted, bind, await.
  rewrite Hreply. unfold ret. rewrite Htrim.
  rewrite (instruction_match_exact T body HT (noLineTerminator_inner _ _ _ HJ)).
  rewrite Hparse. unfold callTool.
  destruct (decide (mcp ∈ open_conns w)); [|done].
  destruct (callTool_outcome env mcp (trim T) (JObj props)) as [e1|r]; [done|].
  destruct (normalizeContent r) as [e2|text]; [done|].
  by destruct (generateContent env _ (answerPrompt query text)).
Qed.

(** ** Spawning and normalisation *)

Section SpawnFacts.
Variable env : Env.

(** X10. Discovery spawns every candidate exactly once, in the order of the
    candidate list and whatever became of the earlier ones: with python for
    a name that ends in .py and with the node binary for every other name.
    Each candidate gets a client of its own. *)
Theorem discovery_spawns_every_candidate_once convertTool cands w :
  let w' := snd (discover env convertTool cands [] w) in
  spawns w' = spawns w ++ map (fun p => (commandFor env p, p)) cands
  /\ next_client w' = next_client w + length cands
  /\ calls w' = calls w
  /\ (forall p, p ∈ cands ->
        commandFor env p
        = if endsWith p (js ".py")
          then (if str_eqb (platform env) (js "win32") then js "python" else js "python3")
          else execPath env).
Proof.
  cbv zeta. rewrite discover_spec. cbn [snd spawns next_client calls]. repeat split.
Qed.

(** X11. [connectToServer] of the single-server variant spawns a process
    only for a name that ends in .js or .py: any other name is refused
    before anything is spawned or connected. For an accepted name one
    process is spawned, and the client is connected whenever the call
    returns. *)
Theorem connectToServer_checks_extension mcp p w :
  let r := SingleServer.connectToServer env mcp p w in
  (endsWith p (js ".js") || endsWith p (js ".py") = false ->
   r = (Throw (JsError (js "Server script must be a .js or .py file")), w))
  /\ (endsWith p (js ".js") || endsWith p (js ".py") = true ->
      spawns (snd r) = spawns w ++ [(commandFor env p, p)]
      /\ (forall ts, fst r = Normal ts -> mcp ∈ open_conns (snd r))).
Proof.
  cbv zeta. unfold SingleServer.connectToServer, connectToServer_single, try_catch.
  destruct (endsWith p (js ".js")) eqn:Ejs; destruct (endsWith p (js ".py")) eqn:Epy;
    cbn [orb negb andb]; (split; [try done|intros Ht; try done]).
  all: unfold bind, connect, listTools, await, throw, ret, commandFor; rewrite Epy;
    destruct (connect_outcome env _ p); cbn [fst snd spawns open_conns];
    [split; [done|by intros ? [=]]|].
  all: destruct (listTools_outcome env p); cbn [fst snd spawns open_conns];
    (split; [done|]); intros ts; try (by intros [=]); intros _; set_solver.
Qed.
End SpawnFacts.

Lemma filterTextItems_null items :
  (exists e, filterTextItems items = inl e) <-> JNull ∈ items.
Proof.
  induction items as [|item items IH]; cbn [filterTextItems].
  - split; [by intros [e H]|by intros ?%elem_of_nil].
  - rewrite elem_of_cons. destruct item as [| | | | |props]; cbn [isTextItem];
      try (destruct (filterTextItems items) as [e|kept];
           [split; [intros _; right; apply IH; eauto|eauto]
           |split; [by intros [e H]|intros [H|H]; [done|apply IH in H as [e H]; done]]]).
    split; [by left|eauto].
Qed.

(** X12. Normalisation throws for exactly one kind of result: an array with a
    null item, for which it throws a TypeError. *)
Theorem normalization_throws_only_on_null_item c :
  (forall e, normalizeContent c = inl e -> e = TypeError)
  /\ ((exists e, normalizeContent c = inl e) <-> exists items, c = JArr items /\ JNull ∈ items).
Proof.
  assert (Hte : forall items e, filterTextItems items = inl e -> e = TypeError).
  { induction items as [|item items IH]; cbn [filterTextItems]; [done|]. intros e.
    destruct item as [| | | | |props]; cbn [isTextItem]; try (by intros [= <-]);
      destruct (filterTextItems items) as [e0|kept]; try done;
      intros [= <-]; by apply IH. }
  split.
  - intros e. destruct c as [|b|z|s|items|props]; cbn [normalizeContent]; try done.
    destruct (filterTextItems items) as [e0|kept] eqn:E; [|done].
    intros [= <-]. by apply (Hte items).
  - split.
    + intros [e H]. destruct c as [|b|z|s|items|props]; cbn [normalizeContent] in H; try done.
      exists items. split; [done|]. apply filterTextItems_null.
      destruct (filterTextItems items) as [e0|kept]; [eauto|done].
    + intros (items & -> & Hnull). apply filterTextItems_null in Hnull as [e He].
      exists e. cbn [normalizeContent]. by rewrite He.
Qed.

Lemma join_two_nonempty sep a b l : sep <> [] -> join sep (a :: b :: l) <> [].
Proof.
  intros Hsep. rewrite join_cons_cons. destruct a; destruct sep; done.
Qed.

(** X13. Two or more text items are always joined, whatever their texts: the
    result is never the pretty-printed fallback. *)
Theorem several_text_items_are_joined items :
  (forall item, item ∈ items -> item <> JNull) ->
  2 <= length (omap textOf items) ->
  normalizeContent (JArr items) = inr (join [10%N; 10%N] (omap textOf items)).
Proof.
  intros Hnn Hlen. rewrite normalize_array by done. cbv zeta.
  destruct (omap textOf items) as [|a [|b l]]; cbn [length] in Hlen; try lia.
  pose proof (join_two_nonempty [10%N; 10%N] a b l ltac:(done)) as Hne.
  by destruct (join [10%N; 10%N] (a :: b :: l)).
Qed.

(** ** The path-selecting selector *)

Lemma startsWith_spec s x : startsWith s x = true <-> exists post, s = x ++ post.
Proof.
  revert s. induction x as [|a x IH]; intros s; cbn [startsWith].
  - split; [intros _; by exists s|intros _; by destruct s].
  - destruct s as [|b s]; cbn [startsWith].
    + split; [done|]. by intros [post H].
    + rewrite andb_true_iff, N.eqb_eq, IH. split.
      * intros [-> [post ->]]. by exists post.
      * intros [post [= -> ->]]. eauto.
Qed.

(** [s.includes(x)] holds exactly when [x] occurs in [s]. *)
Lemma includes_spec s x : includes s x = true <-> exists pre post, s = pre ++ x ++ post.
Proof.
  induction s as [|b s IH]; cbn [includes]; rewrite orb_true_iff, startsWith_spec.
  - split.
    + intros [[post H]|?]; [|done]. by exists [], post.
    + intros (pre & post & H). left. destruct pre; [|done]. by exists post.
  - rewrite IH. split.
    + intros [[post H]|(pre & post & ->)]; [by exists [], post|]. by exists (b :: pre), post.
    + intros ([|c pre] & post & H); [left; by exists post|].
      right. injection H as -> ->. eauto.
Qed.

Lemma find_split {A} (f : A -> bool) l x :
  List.find f l = Some x ->
  exists l1 l2, l = l1 ++ x :: l2 /\ f x = true /\ forall y, y ∈ l1 -> f y = false.
Proof.
  induction l as [|a l IH]; cbn [List.find]; [done|].
  destruct (f a) eqn:Ha.
  - intros [= ->]. exists [], l. repeat split; [done|]. by intros y ?%elem_of_nil.
  - intros (l1 & l2 & -> & Hx & Hl1)%IH. exists (a :: l1), l2. repeat split; [done|].
    intros y [->|Hy]%elem_of_cons; auto.
Qed.

Lemma find_same_path infos (f : ServerInfo -> bool) first :
  List.find f infos = Some first ->
  (forall i, path i = path first -> f i = true) ->
  List.find (fun info => str_eqb (path info) (path first)) infos = Some first.
Proof.
  intros (l1 & l2 & -> & Hx & Hl1)%find_split Hf.
  induction l1 as [|a l1 IH]; cbn [app List.find]; unfold str_eqb.
  - by rewrite bool_decide_eq_true_2.
  - rewrite bool_decide_eq_false_2.
    + apply IH. intros y Hy. apply Hl1. by right.
    + intros E. apply Hf in E. rewrite Hl1 in E; [done|by left].
Qed.

Section PathFacts.
Variable env : Env.

Lemma path_select_success cands query w b w' :
  wfWorld w -> NoDup cands ->
  PathVariant.selectServerScript env cands query w = (Normal b, w') ->
  exists blocks l1 l2,
    messages_create env 200
      [userMessage (JStr (serverPrompt query (discovered env convertTool cands (next_client w))))]
      None = inr blocks
    /\ discovered env convertTool cands (next_client w) = l1 ++ b :: l2
    /\ (exists pre post, trim (blocksText blocks) = pre ++ path b ++ post)
    /\ path b <> []
    /\ (forall i, i ∈ l1 -> includes (trim (blocksText blocks)) (path i) = false)
    /\ calls w' = calls w
    /\ open_conns w' = open_conns w ∪ halfOpen env cands (next_client w) ∪ {[client b]}.
Proof.
  intros Hwf Hnd. unfold PathVariant.selectServerScript, selectServerScript_by_path.
  unfold bind at 1. rewrite discover_spec. cbn [app].
  destruct (length _ =? 0); [discriminate|].
  unfold bind at 1, askAnthropic, bind, await.
  destruct (messages_create env 200 _ None) as [e|blocks] eqn:Hm; [discriminate|].
  unfold ret.
  match goal with |- context [List.find ?f ?l] => destruct (List.find f l) as [first|] eqn:Hfind end;
    cbn [option_map]; [|discriminate].
  destruct (isEmptyString (path first)) eqn:Hempty; [discriminate|].
  rewrite (find_same_path _ _ first Hfind) by (by intros i ->; apply find_split in Hfind as (?&?&?&?&?)).
  unfold bind. rewrite closeUnselected_spec. intros [= <- <-].
  destruct (find_split _ _ _ Hfind) as (l1 & l2 & Hl & Hinc & Hl1).
  exists blocks, l1, l2. repeat split; try done.
  - by apply includes_spec.
  - intros E. by rewrite E in Hempty.
  - cbn [open_conns]. apply kept_after_selection; try done.
    rewrite Hl. apply elem_of_app. right. by left.
Qed.

(** X14. The path-selecting selector returns the first discovered server whose
    path occurs in the trimmed text of the response: no earlier one is
    mentioned there, even as part of a longer path. The selected client
    stays connected and every other discovered one is closed; what failed
    at listTools stays connected as well. *)
Theorem path_selector_returns_first_mentioned cands query w b w' :
  wfWorld w -> NoDup cands ->
  PathVariant.selectServerScript env cands query w = (Normal b, w') ->
  exists blocks l1 l2,
    messages_create env 200
      [userMessage (JStr (serverPrompt query (discovered env convertTool cands (next_client w))))]
      None = inr blocks
    /\ discovered env convertTool cands (next_client w) = l1 ++ b :: l2
    /\ (exists pre post, trim (blocksText blocks) = pre ++ path b ++ post)
    /\ path b <> []
    /\ (forall i, i ∈ l1 -> includes (trim (blocksText blocks)) (path i) = false)
    /\ calls w' = calls w
    /\ open_conns w' = open_conns w ∪ halfOpen env cands (next_client w) ∪ {[client b]}.
Proof. apply path_select_success. Qed.

(** X15. When no discovered path occurs in the response the selector throws,
    and it has closed nothing: every client that connected during
    discovery is still connected. *)
Theorem path_selector_failure_closes_nothing cands query w blocks :
  (exists p, p ∈ cands /\ isReachable env p = true) ->
  messages_create env 200
    [userMessage (JStr (serverPrompt query (discovered env convertTool cands (next_client w))))]
    None = inr blocks ->
  (forall i, i ∈ discovered env convertTool cands (next_client w) ->
     includes (trim (blocksText blocks)) (path i) = false) ->
  exists w',
    PathVariant.selectServerScript env cands query w
    = (Throw (JsError (msg_no_server_path ++ trim (blocksText blocks))), w')
    /\ open_conns w' = connected env cands (next_client w) ∪ open_conns w
    /\ calls w' = calls w.
Proof.
  intros (p & Hp & Hr) Hm Hnone.
  unfold PathVariant.selectServerScript, selectServerScript_by_path.
  unfold bind at 1. rewrite discover_spec. cbn [app].
  assert (Hlen : length (discovered env convertTool cands (next_client w)) <> 0).
  { rewrite <- (length_map path), discovered_paths.
    assert (Hin : p ∈ List.filter (isReachable env) cands).
    { rewrite list_elem_of_In, filter_In, <- list_elem_of_In. done. }
    destruct (List.filter _ cands); [by apply elem_of_nil in Hin|done]. }
  apply Nat.eqb_neq in Hlen. rewrite Hlen.
  unfold bind at 1, askAnthropic, bind, await. rewrite Hm. unfold ret.
  match goal with |- context [List.find ?f ?l] => destruct (List.find f l) as [first|] eqn:Hfind end;
    cbn [option_map].
  - apply find_some in Hfind as [Hin Hinc]. rewrite <- list_elem_of_In in Hin.
    rewrite Hnone in Hinc; done.
  - eexists. split; [reflexivity|]. done.
Qed.
End PathFacts.

(** ** Chat loops and entry points *)

(** X16. The chat loop hands every line before the first quit to
    [processQuery], in order, and returns at the quit without reading what
    follows; an exception of [processQuery] ends it. Without a quit it is
    left waiting for the next line. *)
Theorem chatLoop_runs_until_quit processQuery l1 w :
  Forall (fun m => isQuit m = false) l1 ->
  (forall q l2, isQuit q = true ->
     chatLoop processQuery (l1 ++ q :: l2) w
     = (for_of l1 (fun m => processQuery m ;;; ret tt) ;;; ret Returned) w)
  /\ chatLoop processQuery l1 w
     = (for_of l1 (fun m => processQuery m ;;; ret tt) ;;; ret Waiting) w.
Proof.
  intros H. revert w. induction H as [|m l1 Hm Hl1 IH]; intros w.
  - split; [|done]. intros q l2 Hq. cbn [app chatLoop for_of]. unfold isQuit in Hq. by rewrite Hq.
  - unfold isQuit in Hm. split; [intros q l2 Hq|]; cbn [app chatLoop for_of]; rewrite Hm;
      unfold bind; destruct (processQuery m w) as [[r|e] w1]; try done; unfold ret at 1.
    + destruct (IH w1) as [IH1 _]. rewrite (IH1 q l2 Hq). unfold bind. done.
    + destruct (IH w1) as [_ IH2]. rewrite IH2. unfold bind. done.
Qed.

Lemma chatLoop_conns processQuery lines :
  (forall q w0, open_conns (snd (processQuery q w0)) = open_conns w0) ->
  forall w, open_conns (snd (chatLoop processQuery lines w)) = open_conns w.
Proof.
  intros Hp. induction lines as [|m rest IH]; intros w; cbn [chatLoop]; [done|].
  destruct (str_eqb _ _); [done|]. unfold bind.
  specialize (Hp m w). destruct (processQuery m w) as [[r|e] w1]; cbn [snd] in *; [|done].
  by rewrite IH.
Qed.

Lemma finally_exit_outcome body fin code w c w' :
  (forall w0, exists w1, fin w0 = (Normal tt, w1)) ->
  finally_exit body fin code w = (c, w') ->
  (c = Normal Waiting /\ body w = (Normal Waiting, w'))
  \/ (c = Normal (Exited code) /\ fin (snd (body w)) = (Normal tt, w')).
Proof.
  intros Hfin. unfold finally_exit.
  destruct (body w) as [[[| |k]|e] w1]; cbn [snd]; unfold bind, ret;
    try (intros [= <- <-]; by left);
    destruct (Hfin w1) as [w2 ->]; intros [= <- <-]; by right.
Qed.

Section MainFacts.
Variable env : Env.

(** X17. The single-server program started with a server path never ends with
    an exception: unless it is still waiting for input it exits with
    status 0, also when the server could not be reached or the path was
    refused, and its client is closed by then. Started without a path it
    returns at once and spawns nothing. *)
Theorem single_main_exits_cleanly argv lines w c w' :
  wfWorld w ->
  main_single env argv lines w = (c, w') ->
  (length argv < 3 -> c = Normal Returned /\ w' = w)
  /\ (3 <= length argv -> c <> Normal Waiting ->
      c = Normal (Exited 0) /\ open_conns w' = open_conns w).
Proof.
  intros Hwf. unfold main_single. destruct (length argv <? 3) eqn:Hlen.
  - apply Nat.ltb_lt in Hlen. unfold ret. intros [= <- <-]. split; [done|lia].
  - apply Nat.ltb_ge in Hlen. intros Hmain. split; [lia|]. intros _ Hnw. revert Hmain.
    unfold bind at 1, newClient.
    intros [[-> _]|[-> Hfin]]%finally_exit_outcome; [done| |intros w0; by eexists].
    split; [done|]. revert Hfin. unfold close. intros [= <-]. cbn [open_conns].
    match goal with |- context [snd ?x] => set (r := x) end.
    assert (Hsub : open_conns (snd r) ⊆ {[next_client w]} ∪ open_conns w).
    { subst r. unfold bind, SingleServer.connectToServer, connectToServer_single, try_catch.
      destruct (negb _ && negb _); [unfold throw; cbn [snd open_conns]; set_solver|].
      unfold bind, connect. cbn [next_client open_conns spawns calls].
      destruct (connect_outcome env _ _); [cbn [snd open_conns]; set_solver|].
      unfold listTools, await. destruct (listTools_outcome env _); unfold throw, ret;
        [cbn [snd open_conns]; set_solver|].
      rewrite chatLoop_conns by (intros; apply processQuery_native_conns).
      cbn [open_conns]. set_solver. }
    assert (Hsup : open_conns w ⊆ open_conns (snd r)).
    { subst r. unfold bind, SingleServer.connectToServer, connectToServer_single, try_catch.
      destruct (negb _ && negb _); [unfold throw; cbn [snd open_conns]; set_solver|].
      unfold bind, connect. cbn [next_client open_conns spawns calls].
      destruct (connect_outcome env _ _); [cbn [snd open_conns]; set_solver|].
      unfold listTools, await. destruct (listTools_outcome env _); unfold throw, ret;
        [cbn [snd open_conns]; set_solver|].
      rewrite chatLoop_conns by (intros; apply processQuery_native_conns).
      cbn [open_conns]. set_solver. }
    assert (Hfresh : next_client w ∉ open_conns w) by (intros ?%Hwf; lia).
    set_solver.
Qed.

Lemma cleanup_total mcp w0 : exists w1, cleanup mcp w0 = (Normal tt, w1).
Proof. unfold cleanup, bind, transport_close, close. by eexists. Qed.

Lemma cleanup_conns mcp w0 :
  open_conns (snd (cleanup mcp w0)) = open_conns w0 ∖ {[mcp]}.
Proof. unfold cleanup, bind, transport_close, close. cbn. set_solver. Qed.

Lemma main_selected_exit select query rest w c w' :
  main_selected env select (query :: rest) w = (c, w') ->
  c <> Normal Waiting ->
  (exists e, c = Throw e /\ select query w = (Throw e, w'))
  \/ (exists sel w1, select query w = (Normal sel, w1)
       /\ c = Normal (Exited 0) /\ open_conns w' = open_conns w1 ∖ {[client sel]}).
Proof.
  unfold main_selected. unfold bind at 1.
  destruct (select query w) as [[sel|e] w1] eqn:Hsel.
  - intros [[-> _]|[-> Hfin]]%finally_exit_outcome Hnw; [done| |apply cleanup_total].
    right. exists sel, w1. split; [done|]. split; [done|].
    pose proof (cleanup_conns (client sel)
      (snd (chatLoop (processQuery_native env (client sel) (tools sel)) rest w1))) as Hc.
    rewrite Hfin in Hc. cbn [snd] in Hc. rewrite Hc.
    by rewrite chatLoop_conns by (intros; apply processQuery_native_conns).
  - intros [= <- <-] _. left. by exists e.
Qed.

(** X18. The scoring program, once the first query is typed: it ends with the
    scoring selector's exception when no candidate was reachable, and
    otherwise exits with status 0 unless it is still waiting for input.
    Either way the selected client is closed by then, and what is left
    connected are the clients that failed at listTools. *)
Theorem score_main_closes_selected cands query rest w c w' :
  wfWorld w ->
  main_by_score env cands (query :: rest) w = (c, w') ->
  c <> Normal Waiting ->
  (c = Normal (Exited 0)
   \/ (c = Throw (JsError (js "No suitable MCP server found."))
       /\ forall p, p ∈ cands -> isReachable env p = false))
  /\ open_conns w' = open_conns w ∪ halfOpen env cands (next_client w).
Proof.
  intros Hwf. unfold main_by_score, main_selected, ScoreVariant.selectServerScript.
  unfold bind at 1.
  destruct (selectServerScript_by_score env cands query w) as [[b|e] w1] eqn:Hsel.
  - pose proof (score_select_success env cands query w b w1 Hwf Hsel) as Ho.
    intros [[-> _]|[-> Hfin]]%finally_exit_outcome Hnw; [done| |apply cleanup_total].
    split; [by left|].
    pose proof (cleanup_conns (client b)
      (snd (chatLoop (processQuery_native env (client b) (tools b)) rest w1))) as Hc.
    rewrite Hfin in Hc. cbn [snd] in Hc. rewrite Hc.
    rewrite chatLoop_conns by (intros; apply processQuery_native_conns).
    rewrite Ho.
    assert (Hnew : client b ∉ open_conns w ∪ halfOpen env cands (next_client w)).
    { revert Hsel. unfold selectServerScript_by_score, bind.
      destruct (scoreCandidates_spec env query cands (-1)%Z None w Hwf)
        as (best' & w2 & -> & _ & _ & Hb & Ho2 & _); [done|lia|].
      destruct best' as [b'|]; [|discriminate]. unfold ret. intros [= <- <-].
      cbn [clientOpt] in Ho2. intros Hin.
      assert (client b' ∈ open_conns w2 ∖ {[client b']}) by (rewrite Ho2; set_solver).
      set_solver. }
    set_solver.
  - intros [= <- <-] _. revert Hsel. unfold selectServerScript_by_score, bind.
    destruct (scoreCandidates_spec env query cands (-1)%Z None w Hwf)
      as (best' & w2 & -> & _ & _ & Hb & Ho2 & Hnone); [done|lia|].
    destruct best' as [b'|]; [discriminate|]. unfold throw. intros [= <- <-].
    cbn [clientOpt] in Ho2. split; [right; split; [done|by apply Hnone]|].
    set_solver.
Qed.

(** X19. The path-selecting program, once the first query is typed: either it
    ends with the selector's exception, in the state the selector left,
    or it exits with status 0 unless it is still waiting for input, and
    then the selected client is closed and what is left connected are the
    clients that failed at listTools. *)
Theorem path_main_closes_selected cands query rest w c w' :
  wfWorld w -> NoDup cands ->
  main_by_path env cands (query :: rest) w = (c, w') ->
  c <> Normal Waiting ->
  (exists e, c = Throw e /\ PathVariant.selectServerScript env cands query w = (Throw e, w'))
  \/ (c = Normal (Exited 0)
       /\ open_conns w' = open_conns w ∪ halfOpen env cands (next_client w)).
Proof.
  intros Hwf Hnd Hmain Hnw. unfold main_by_path in Hmain.
  destruct (main_selected_exit _ _ _ _ _ _ Hmain Hnw) as [He|(sel & w1 & Hsel & -> & ->)];
    [by left|].
  right. split; [done|].
  destruct (path_select_success env cands query w sel w1 Hwf Hnd Hsel)
    as (_ & l1 & l2 & _ & Hd & _ & _ & _ & _ & ->).
  assert (Hin : sel ∈ discovered env convertTool cands (next_client w)).
  { rewrite Hd. apply elem_of_app. right. by left. }
  pose proof (selected_is_fresh env convertTool cands (next_client w) (open_conns w) sel Hwf Hin).
  set_solver.
Qed.
End MainFacts.

Section LoopFacts.
Variable select : jsstring -> M Selection.
Variable processQuery : ClientId -> list Tool -> jsstring -> M jsstring.

Lemma mainLoop_throws_aux n : forall lines w e w',
  length lines <= n ->
  mainLoop select processQuery lines w = (Throw e, w') ->
  exists query confirm sel w1 w2,
    query ∈ lines /\ confirm ∈ lines /\ affirmative confirm = true
    /\ select query w1 = (Normal sel, w2)
    /\ fst (processQuery (client (selectedServer sel)) [selectedTool sel] query w2) = Throw e.
Proof.
  induction n as [|n IH]; intros lines w e w' Hlen.
  - destruct lines; [|cbn in Hlen; lia]. discriminate.
  - destruct lines as [|query rest]; [discriminate|]. cbn [mainLoop length] in *.
    unfold bind at 1, try_catch. unfold bind at 1.
    destruct (select query w) as [[sel|e0] w1] eqn:Hsel; unfold ret at 1.
    + destruct rest as [|confirm rest']; [discriminate|]. cbn [length] in Hlen.
      destruct (negb _) eqn:Hc.
      * intros H. apply IH in H as (q & cf & s & wa & wb & Hq & Hcf & H); [|lia].
        exists q, cf, s, wa, wb. split; [by do 2 right|]. split; [by do 2 right|done].
      * unfold bind at 1, try_finally, bind.
        destruct (processQuery _ _ query w1) as [[r|e1] w2] eqn:Hp;
          destruct (cleanup_total (client (selectedServer sel)) w2) as [w3 Hcl];
          try unfold ret at 1; rewrite Hcl.
        -- intros H. apply IH in H as (q & cf & s & wa & wb & Hq & Hcf & H); [|lia].
           exists q, cf, s, wa, wb. split; [by do 2 right|]. split; [by do 2 right|done].
        -- intros [= <- <-]. exists query, confirm, sel, w, w1.
           split; [by left|]. split; [right; by left|].
           apply negb_false_iff in Hc. unfold affirmative. rewrite Hc, Hp. done.
    + intros H. apply IH in H as (q & cf & s & wa & wb & Hq & Hcf & H); [|lia].
      exists q, cf, s, wa, wb. split; [by right|]. split; [by right|done].
Qed.

(** X20. The loop of [main] has no way out but an exception, and no failure
    of the selector is one: on any input it is either waiting for the next
    line or has ended with an exception that [processQuery] threw in a
    confirmed turn. In particular no line is a command to leave. *)
Theorem main_loop_ends_only_on_invoker_error lines w c w' :
  mainLoop select processQuery lines w = (c, w') ->
  c = Normal Waiting
  \/ exists e query confirm sel w1 w2,
       c = Throw e /\ query ∈ lines /\ confirm ∈ lines /\ affirmative confirm = true
       /\ select query w1 = (Normal sel, w2)
       /\ fst (processQuery (client (selectedServer sel)) [selectedTool sel] query w2) = Throw e.
Proof.
  destruct c as [r|e].
  - intros H. left. f_equal. revert w H.
    induction lines as [lines IH] using (induction_ltof1 _ (@length _)); unfold ltof in IH.
    intros w. destruct lines as [|query rest]; cbn [mainLoop]; [by intros [= <- _]|].
    unfold bind at 1, try_catch. unfold bind at 1.
    destruct (select query w) as [[sel|e0] w1]; unfold ret at 1.
    + destruct rest as [|confirm rest']; [by intros [= <- _]|].
      destruct (negb _); [apply IH; cbn; lia|].
      unfold bind at 1. destruct (try_finally _ _ w1) as [[u|e1] w2]; [|discriminate].
      apply IH; cbn; lia.
    + apply IH; cbn; lia.
  - intros H. right. exists e.
    apply (mainLoop_throws_aux (length lines)) in H as (q & cf & s & wa & wb & H); [|lia].
    by exists q, cf, s, wa, wb.
Qed.
End LoopFacts.

(** ** JSON texts and the selection prompt *)

Lemma hasProp_false key props : key ∉ map fst props -> hasProp key props = false.
Proof.
  induction props as [|[k v] rest IH]; cbn [hasProp map fst]; [done|].
  rewrite not_elem_of_cons. intros [Hne Hrest]. rewrite IH by done.
  unfold str_eqb. by rewrite bool_decide_eq_false_2.
Qed.

Lemma objectOfMembers_plain props :
  NoDup (map fst props) -> Forall (fun kv => arrayIndex (fst kv) = None) props ->
  objectOfMembers props = props.
Proof.
  unfold objectOfMembers.
  assert (H : forall acc, NoDup (map fst (acc ++ props)) ->
            Forall (fun kv => arrayIndex (fst kv) = None) props ->
            fold_left (fun o '(k, v) => setProp k v o) props acc = acc ++ props).
  { induction props as [|[k v] rest IH]; intros acc Hnd Hidx; cbn [fold_left].
    - by rewrite app_nil_r.
    - apply Forall_cons in Hidx as [Hk Hrest]. cbn [fst] in Hk.
      unfold setProp. rewrite hasProp_false, Hk.
      + rewrite IH; [by rewrite <- app_assoc| |done]. by rewrite <- app_assoc.
      + rewrite map_app in Hnd. apply NoDup_app in Hnd as (_ & Hdis & _).
        intros Hin. apply (Hdis k Hin). cbn. by left. }
  intros Hnd Hidx. by apply (H []).
Qed.

Lemma PlainKeys_Canonical v : PlainKeys v -> Canonical v.
Proof.
  induction v as [| | | |items IH|props IH] using JValue_nested_ind; cbn [PlainKeys Canonical];
    try done.
  - induction IH as [|x l Hx Hl IHl]; cbn [fold_right]; [done|]. intros [H1 H2]. auto.
  - intros (Hnd & Hidx & Hall). split; [by apply objectOfMembers_plain|].
    clear Hnd Hidx. induction IH as [|[k x] l Hx Hl IHl]; cbn [fold_right]; [done|].
    cbn [fold_right] in Hall. destruct Hall as [H1 H2]. cbn [snd] in Hx. auto.
Qed.

(** X21. Parsing what [JSON.stringify] printed gives the value back, for every
    indentation, whenever the keys of each of its objects are distinct and
    none of them is an array index. *)
Theorem stringify_then_parse_plain_keys v space :
  PlainKeys v -> JSON_parse (JSON_stringify v space) = Some v.
Proof.
  intros H. apply JSON_parse_stringify. by apply PlainKeys_Canonical.
Qed.

Lemma join_lookup sep (l : list jsstring) i x :
  l !! i = Some x -> exists pre post, join sep l = pre ++ x ++ post.
Proof.
  revert i. induction l as [|a l IH]; intros i; [done|].
  destruct i as [|i]; cbn [lookup list_lookup].
  - intros [= ->]. exists []. destruct l as [|b l].
    + exists []. cbn [join]. by rewrite app_nil_r.
    + rewrite join_cons_cons. by eexists.
  - intros Hi. destruct l as [|b l]; [done|]. apply IH in Hi as (pre & post & E).
    rewrite join_cons_cons, E. exists (a ++ sep ++ pre), post. by rewrite <- !app_assoc.
Qed.

(** X22. The selection prompt starts with the instruction, quotes the query
    as typed, and lists every tool of every reachable candidate: the tool
    at position [idx] of the registry is on a line of its own kind,
    numbered [idx + 1], with the path of its server, its name and its
    description. *)
Theorem selection_prompt_lists_every_tool env convertTool cands query idx p t :
  registry env convertTool cands !! idx = Some (p, t) ->
  let prompt := selectionPrompt query (registry env convertTool cands) in
  (exists post, prompt = selection_instruction ++ query_label ++ query ++ post)
  /\ exists pre post,
       prompt = pre ++ (js "Tool" ++ nat_to_string (idx + 1) ++ js ": path='" ++ p
                          ++ js "', name='" ++ name t
                          ++ js "', description='" ++ descriptionText (description t)
                          ++ js "'") ++ post.
Proof.
  intros Hidx. cbv zeta. unfold selectionPrompt. split; [by eexists|].
  unfold toolListText.
  destruct (join_lookup [10%N]
    (imap (fun idx '(p, tool) =>
             js "Tool" ++ nat_to_string (idx + 1) ++ js ": path='" ++ p
               ++ js "', name='" ++ name tool
               ++ js "', description='" ++ descriptionText (description tool) ++ js "'")
          (registry env convertTool cands)) idx
    (js "Tool" ++ nat_to_string (idx + 1) ++ js ": path='" ++ p
       ++ js "', name='" ++ name t
       ++ js "', description='" ++ descriptionText (description t) ++ js "'"))
    as (pre & post & E).
  { rewrite list_lookup_imap, Hidx. done. }
  rewrite E. exists (selection_instruction ++ query_label ++ query ++ tool_list_label ++ pre), post.
  by rewrite <- !app_assoc.
Qed.

(** ** Examples *)

(** X1, witness. *)
Lemma native_tool_calls_follow_response_witness :
  calls (snd (AnthropicApi.processQuery tool_use_env 0 [convertTool get_weather] tokyo_query
                connected_world))
  = calls connected_world ++ toolUses 0 [TextBlock (js "Let me check.");
                                          ToolUseBlock (js "get_weather") tokyo_args].
Proof.
  destruct (AnthropicApi.processQuery tool_use_env 0 [convertTool get_weather] tokyo_query
              connected_world) as [c w'] eqn:E.
  destruct (native_tool_calls_follow_response tool_use_env 0 [convertTool get_weather]
              tokyo_query connected_world _ c w' eq_refl E) as (n & _ & H).
  apply H. destruct c as [r|e]; [reflexivity|]. vm_compute in E. discriminate.
Defined.

(** X2, witness. *)
Lemma prompted_query_calls_at_most_once_witness :
  let env := demo_env weather_reply tokyo_reply in
  exists nm args,
    calls (snd (GeminiApi.processQuery env 0 [convertToolGemini get_weather] tokyo_query
                  connected_world))
    = calls connected_world ++ [mkCall 0 nm args].
Proof.
  intros env.
  destruct (GeminiApi.processQuery env 0 [convertToolGemini get_weather] tokyo_query
              connected_world) as [c w'] eqn:E.
  destruct (prompted_query_calls_at_most_once env 0 [convertToolGemini get_weather]
              tokyo_query connected_world c w' E) as [_ H].
  destruct c as [answer|e]; [|vm_compute in E; discriminate].
  exact (proj1 (H answer eq_refl)).
Defined.

(** X3, witness. *)
Lemma confirmed_turn_closes_selected_witness :
  let env := demo_env weather_reply tokyo_reply in
  let cands := [notes_py; weather_js] in
  open_conns (snd (AnthropicApi.mainTurn env cands tokyo_query (js " OK ") initial_world))
  = open_conns initial_world ∪ halfOpen env cands (next_client initial_world).
Proof.
  intros env cands.
  assert (Hnd : NoDup cands) by (apply (bool_decide_unpack _); vm_compute; exact I).
  apply (proj1 (confirmed_turn_closes_selected env cands tokyo_query (js " OK ") initial_world
                  wfWorld_initial Hnd ltac:(vm_compute; reflexivity))).
  vm_compute. reflexivity.
Defined.

(** X4, witness. *)
Lemma unparsable_selection_leaves_all_open_witness :
  let env := demo_env (js "I cannot choose") tokyo_reply in
  exists w',
    GeminiApi.mainTurn env [weather_js] tokyo_query (js "ok") initial_world = (Normal tt, w')
    /\ calls w' = calls initial_world
    /\ open_conns w' = connected env [weather_js] (next_client initial_world)
                         ∪ open_conns initial_world.
Proof.
  intros env.
  apply (unparsable_selection_leaves_all_open env [weather_js] tokyo_query (js "ok")
           initial_world (js "I cannot choose")).
  - exists weather_js. split; [by left|vm_compute; reflexivity].
  - vm_compute. reflexivity.
  - apply selection_match_None. vm_compute. reflexivity.
Defined.

(** X6, witness. *)
Lemma score_selects_first_maximum_witness :
  let env := demo_env weather_reply tokyo_reply in
  let cands := [down_js; weather_js] in
  exists b l1 l2,
    discovered env convertTool cands (next_client initial_world) = l1 ++ b :: l2
    /\ (forall i, i ∈ l1 -> (score (js "get_weather") (tools i)
                             < score (js "get_weather") (tools b))%Z)
    /\ (forall i, i ∈ l2 -> (score (js "get_weather") (tools i)
                             <= score (js "get_weather") (tools b))%Z).
Proof.
  intros env cands.
  destruct (ScoreVariant.selectServerScript env cands (js "get_weather") initial_world)
    as [[b|e] w'] eqn:E; [|vm_compute in E; discriminate].
  exists b. exact (score_selects_first_maximum env cands (js "get_weather") initial_world b w' E).
Defined.

(** X8, witness. *)
Lemma selector_accepts_requested_format_witness :
  exists w',
    resolveSelection [weather_info]
      (js "path=" ++ path weather_info ++ js ", name=" ++ name (convertTool get_weather))
      connected_world
    = (Normal (mkSelection weather_info (convertTool get_weather)), w').
Proof.
  apply selector_accepts_requested_format; vm_compute; reflexivity.
Defined.

(** X9, witness. *)
Lemma invoker_accepts_requested_format_witness :
  let env := demo_env weather_reply tokyo_reply in
  calls (snd (GeminiApi.processQuery env 0 [convertToolGemini get_weather] tokyo_query
                connected_world))
  = calls connected_world
      ++ [mkCall 0 (trim (js "get_weather")) (JObj [(js "location", JStr (js "Tokyo"))])].
Proof.
  intros env.
  apply (invoker_accepts_requested_format env 0 [convertToolGemini get_weather] tokyo_query
           connected_world (js "get_weather") [(js "location", JStr (js "Tokyo"))]).
  - vm_compute. reflexivity.
  - vm_compute. reflexivity.
  - vm_compute. reflexivity.
  - vm_compute. repeat split.
  - vm_compute. reflexivity.
Defined.

(** X13, witness. *)
Lemma several_text_items_are_joined_witness :
  normalizeContent (JArr [textItem (js "A"); JNum 1; textItem []])
  = inr (join [10%N; 10%N] (omap textOf [textItem (js "A"); JNum 1; textItem []])).
Proof.
  apply several_text_items_are_joined.
  - intros item Hin. apply list_elem_of_In in Hin. simpl in Hin.
    destruct Hin as [<-|[<-|[<-|[]]]]; discriminate.
  - vm_compute. lia.
Defined.

(** X14, witness. *)
Lemma path_selector_returns_first_mentioned_witness :
  let env := demo_env (js "The best server is /srv/weather.js") tokyo_reply in
  let cands := [notes_py; weather_js] in
  exists b w',
    PathVariant.selectServerScript env cands tokyo_query initial_world = (Normal b, w')
    /\ path b <> []
    /\ open_conns w' = open_conns initial_world
                         ∪ halfOpen env cands (next_client initial_world) ∪ {[client b]}.
Proof.
  intros env cands.
  assert (Hnd : NoDup cands) by (apply (bool_decide_unpack _); vm_compute; exact I).
  destruct (PathVariant.selectServerScript env cands tokyo_query initial_world)
    as [[b|e] w'] eqn:E; [|vm_compute in E; discriminate].
  exists b, w'. split; [reflexivity|].
  destruct (path_selector_returns_first_mentioned env cands tokyo_query initial_world b w'
              wfWorld_initial Hnd E) as (_ & _ & _ & _ & _ & _ & Hne & _ & _ & Ho).
  split; assumption.
Defined.

(** X15, witness. *)
Lemma path_selector_failure_closes_nothing_witness :
  let env := demo_env (js "none of them") tokyo_reply in
  exists w',
    PathVariant.selectServerScript env [weather_js] tokyo_query initial_world
    = (Throw (JsError (msg_no_server_path ++ trim (blocksText [TextBlock (js "none of them")]))),
       w')
    /\ open_conns w' = connected env [weather_js] (next_client initial_world)
                         ∪ open_conns initial_world
    /\ calls w' = calls initial_world.
Proof.
  intros env.
  apply (path_selector_failure_closes_nothing env [weather_js] tokyo_query initial_world
           [TextBlock (js "none of them")]).
  - exists weather_js. split; [by left|vm_compute; reflexivity].
  - reflexivity.
  - intros i Hi. vm_compute in Hi. apply list_elem_of_singleton in Hi. subst i.
    vm_compute. reflexivity.
Defined.

(** X16, witness. *)
Lemma chatLoop_runs_until_quit_witness :
  let processQuery := AnthropicApi.processQuery tool_use_env 0 [convertTool get_weather] in
  chatLoop processQuery ([tokyo_query] ++ js "Quit" :: [js "not read"]) connected_world
  = (for_of [tokyo_query] (fun m => processQuery m ;;; ret tt) ;;; ret Returned) connected_world.
Proof.
  intros processQuery.
  apply (proj1 (chatLoop_runs_until_quit processQuery [tokyo_query] connected_world
                  ltac:(repeat constructor))).
  vm_compute. reflexivity.
Defined.

(** X17, witness. *)
Lemma single_main_exits_cleanly_witness :
  let r := main_single tool_use_env weather_argv [tokyo_query; js "quit"] initial_world in
  fst r = Normal (Exited 0) /\ open_conns (snd r) = open_conns initial_world.
Proof.
  intros r. subst r.
  destruct (main_single tool_use_env weather_argv [tokyo_query; js "quit"] initial_world)
    as [c w'] eqn:E.
  assert (Hc : c <> Normal Waiting) by (intros ->; vm_compute in E; discriminate).
  destruct (single_main_exits_cleanly tool_use_env weather_argv [tokyo_query; js "quit"]
              initial_world c w' wfWorld_initial E) as [_ H].
  exact (H ltac:(vm_compute; lia) Hc).
Defined.

(** X18, witness. *)
Lemma score_main_closes_selected_witness :
  let cands := [notes_py; weather_js] in
  let r := main_by_score tool_use_env cands (js "get_weather" :: [tokyo_query; js "quit"])
             initial_world in
  open_conns (snd r)
  = open_conns initial_world ∪ halfOpen tool_use_env cands (next_client initial_world).
Proof.
  intros cands r. subst r.
  destruct (main_by_score tool_use_env cands (js "get_weather" :: [tokyo_query; js "quit"])
              initial_world) as [c w'] eqn:E.
  assert (Hc : c <> Normal Waiting) by (intros ->; vm_compute in E; discriminate).
  exact (proj2 (score_main_closes_selected tool_use_env cands (js "get_weather")
                  [tokyo_query; js "quit"] initial_world c w' wfWorld_initial E Hc)).
Defined.

(** X20, witness. *)
Lemma main_loop_ends_only_on_invoker_error_witness :
  let env := demo_env weather_reply broken_reply in
  let select := GeminiApi.selectServerScript env [weather_js] in
  let r := main_gemini env [weather_js] [tokyo_query; js "ok"] initial_world in
  fst r = Normal Waiting
  \/ exists e query confirm sel w1 w2,
       fst r = Throw e /\ query ∈ [tokyo_query; js "ok"] /\ confirm ∈ [tokyo_query; js "ok"]
       /\ affirmative confirm = true
       /\ select query w1 = (Normal sel, w2)
       /\ fst (GeminiApi.processQuery env (client (selectedServer sel)) [selectedTool sel]
                 query w2) = Throw e.
Proof.
  intros env select r. subst r. unfold main_gemini. fold select.
  destruct (mainLoop select (GeminiApi.processQuery env) [tokyo_query; js "ok"] initial_world)
    as [c w'] eqn:E.
  exact (main_loop_ends_only_on_invoker_error select (GeminiApi.processQuery env)
           [tokyo_query; js "ok"] initial_world c w' E).
Defined.

(** X21, witness. *)
Lemma stringify_then_parse_plain_keys_witness :
  JSON_parse (JSON_stringify sample_result 4) = Some sample_result.
Proof.
  apply stringify_then_parse_plain_keys.
  unfold sample_result. cbn [PlainKeys fold_right map fst].
  split; [|split].
  - apply (bool_decide_unpack _). vm_compute. exact I.
  - repeat (apply Forall_cons; split; [vm_compute; reflexivity|]). apply Forall_nil_2.
  - repeat split. vm_compute. discriminate.
Defined.

(** X22, witness. *)
Lemma selection_prompt_lists_every_tool_witness :
  let env := demo_env weather_reply tokyo_reply in
  let prompt := selectionPrompt tokyo_query (registry env convertTool [down_js; weather_js]) in
  (exists post, prompt = selection_instruction ++ query_label ++ tokyo_query ++ post)
  /\ exists pre post,
       prompt = pre ++ (js "Tool" ++ nat_to_string (0 + 1) ++ js ": path='" ++ weather_js
                          ++ js "', name='" ++ name (convertTool get_weather)
                          ++ js "', description='"
                          ++ descriptionText (description (convertTool get_weather))
                          ++ js "'") ++ post.
Proof.
  intros env.
  apply (selection_prompt_lists_every_tool env convertTool [down_js; weather_js] tokyo_query 0
           weather_js (convertTool get_weather)).
  vm_compute. reflexivity.
Defined.

(** X19, witness. *)
Lemma path_main_closes_selected_witness :
  let env := demo_env (js "The best server is /srv/weather.js") (js "Hello") in
  let cands := [notes_py; weather_js] in
  let r := main_by_path env cands [tokyo_query; js "hi"; js "quit"] initial_world in
  fst r = Normal (Exited 0)
  /\ open_conns (snd r)
     = open_conns initial_world ∪ halfOpen env cands (next_client initial_world).
Proof.
  intros env cands r. subst r.
  assert (Hnd : NoDup cands) by (apply (bool_decide_unpack _); vm_compute; exact I).
  destruct (main_by_path env cands [tokyo_query; js "hi"; js "quit"] initial_world)
    as [c w'] eqn:E.
  assert (Hc : c <> Normal Waiting) by (intros ->; vm_compute in E; discriminate).
  destruct (path_main_closes_selected env cands tokyo_query [js "hi"; js "quit"]
              initial_world c w' wfWorld_initial Hnd E Hc) as [(e & -> & _)|H];
    [vm_compute in E; discriminate|exact H].
Defined.
